(** * The event bus of [events/events.go]

    A shallow embedding of the package [events]: the bounded history of
    [jsonmessage.JSONMessage] records, the registry of listeners, the fanout
    of [log], the replay of [writeCurrent], the filter of [writeEvent] and the
    job handlers [Get] and [Log].

    Conventions of the embedding.
    - A channel is identified by a natural number; [make(chan ...)] draws the
      next unused one.  The set of closed channels is kept beside the bus,
      because [close] on a closed channel and a send on a closed channel
      panic in Go.  A panic is the result [None].
    - The mutex [mu] serialises the methods; every method is embedded as one
      atomic state transformer.
    - What the package takes from its collaborators (the wall clock, the
      readiness of a receiver, [json.Marshal], [filters.FromParam], the
      [container_inspect] job, the writer behind [job.Stdout]) is an explicit
      argument, a record field or a section variable. *)

From Stdlib Require Import ZArith Ascii String.
From stdpp Require Import base list gmap strings.

Local Open Scope string_scope.
Local Open Scope list_scope.
Local Open Scope nat_scope.

(** ** Data *)

(** [const eventsLimit = 64] *)
Definition eventsLimit : nat := 64.

(** [type listener chan<- *jsonmessage.JSONMessage]: the channel's identity. *)
Definition listener : Type := nat.

(** The four fields of [jsonmessage.JSONMessage] that the package sets and
    reads.  ([From] and [Time] are reserved words here, hence the
    underscores.) *)
Record JSONMessage : Type := mkJSONMessage {
  Status : string;
  ID : string;
  From_ : string;
  Time_ : Z
}.

(** [type Events struct { mu; events; subscribers }].  A Go slice carries its
    capacity, which [log] compares with its length: [events_cap] is
    [cap(e.events)]. *)
Record Events : Type := mkEvents {
  events : list JSONMessage;
  events_cap : nat;
  subscribers : list listener
}.

(** The part of the Go runtime the package acts on: which channels have been
    closed, the next channel [make] hands out, and every hand-off
    [s <- jm] that went through, oldest first. *)
Record World : Type := mkWorld {
  bus : Events;
  closed : gset listener;
  next_chan : listener;
  inbox : list (listener * JSONMessage)
}.

(** [func New() *Events]: [make([]*JSONMessage, 0, eventsLimit)] and a nil
    subscriber slice. *)
Definition New : Events :=
  {| events := []; events_cap := eventsLimit; subscribers := [] |}.

Definition fresh_world : World :=
  {| bus := New; closed := ∅; next_chan := 0; inbox := [] |}.

(** ** Go slice primitives *)

(** The capacity the runtime picks when [append] has to reallocate; any value
    above the old one would do. *)
Definition grow (c : nat) : nat := Nat.max 1 (2 * c).

(** [append(s, x)] on a slice of capacity [c]: in place while there is room. *)
Definition go_append {A : Type} (s : list A) (c : nat) (x : A) : list A * nat :=
  (s ++ [x], if decide (length s < c) then c else grow c).

(** [copy(dst, src)]: the first [min(len(dst), len(src))] elements of [src]
    overwrite those of [dst]. *)
Definition go_copy {A : Type} (dst src : list A) : list A :=
  let n := Nat.min (length dst) (length src) in
  take n src ++ drop n dst.

(** [s[i] = x], with Go's bounds check. *)
Definition go_store {A : Type} (s : list A) (i : Z) (x : A) : option (list A) :=
  if decide (0 ≤ i < Z.of_nat (length s))%Z then Some (<[Z.to_nat i := x]> s) else None.

(** ** Fanout *)

(** [100 * time.Millisecond], in milliseconds. *)
Definition grace_ms : Z := 100.

Inductive offer : Type := Delivered | TimedOut.

(** [select { case s <- jm: ; case <-time.After(100ms): }] on an open
    channel.  [ready] is the delay after which a receiver is waiting on the
    channel ([None]: never).  The result is the branch taken and the time
    spent in the [select]. *)
Definition select_send (ready : option Z) : offer * Z :=
  match ready with
  | Some d => if (d <? grace_ms)%Z then (Delivered, Z.max 0 d) else (TimedOut, grace_ms)
  | None => (TimedOut, grace_ms)
  end.

(** The loop [for _, s := range e.subscribers { select ... }] of [log].
    Returns the hand-offs made, the branch taken for each subscriber, and the
    time spent; a send on a closed channel panics. *)
Fixpoint fanout (cl : gset listener) (ready : listener → option Z)
    (jm : JSONMessage) (subs : list listener)
    : option (list (listener * JSONMessage) * list (listener * offer) * Z) :=
  match subs with
  | [] => Some ([], [], 0%Z)
  | s :: rest =>
      if decide (s ∈ cl) then None
      else
        let '(o, t) := select_send (ready s) in
        match fanout cl ready jm rest with
        | None => None
        | Some (got, tr, t') =>
            Some (match o with Delivered => (s, jm) :: got | TimedOut => got end,
                  (s, o) :: tr, (t + t')%Z)
        end
  end.

(** A receiver shows up before the grace period is over. *)
Definition within_grace (ready : option Z) : bool :=
  match ready with
  | Some d => (d <? grace_ms)%Z
  | None => false
  end.

(** ** The bus *)

(** The history update of [log]:
    [if len(e.events) == cap(e.events) { copy(e.events, e.events[1:]);
       e.events[len(e.events)-1] = jm } else { e.events = append(e.events, jm) }] *)
Definition record_event (e : Events) (jm : JSONMessage) : option Events :=
  if decide (length (events e) = events_cap e) then
    ev ← go_store (go_copy (events e) (drop 1 (events e)))
                  (Z.of_nat (length (events e)) - 1) jm;
    Some {| events := ev; events_cap := events_cap e; subscribers := subscribers e |}
  else
    let '(ev, c) := go_append (events e) (events_cap e) jm in
    Some {| events := ev; events_cap := c; subscribers := subscribers e |}.

(** [func (e *Events) log(action, id, from string)].  [now] is
    [time.Now().UTC().Unix()].  Beside the new world the result carries the
    branch taken for each subscriber and the time spent in the fanout. *)
Definition log (w : World) (action id from : string) (now : Z)
    (ready : listener → option Z) : option (World * list (listener * offer) * Z) :=
  let jm := {| Status := action; ID := id; From_ := from; Time_ := now |} in
  e ← record_event (bus w) jm;
  '(got, tr, t) ← fanout (closed w) ready jm (subscribers e);
  Some ({| bus := e; closed := closed w; next_chan := next_chan w;
           inbox := inbox w ++ got |}, tr, t).

(** [func (e *Events) subscribe(l listener)] *)
Definition subscribe (e : Events) (l : listener) : Events :=
  {| events := events e; events_cap := events_cap e;
     subscribers := subscribers e ++ [l] |}.

(** [func (e *Events) subscribersCount() int] *)
Definition subscribersCount (e : Events) : nat := length (subscribers e).

(** The loop of [unsubscribe]: the index of the first subscriber equal to
    [l]. *)
Fixpoint find_subscriber (subs : list listener) (l : listener) : option nat :=
  match subs with
  | [] => None
  | s :: rest => if decide (s = l) then Some 0 else S <$> find_subscriber rest l
  end.

(** [close(l)]: panics on a closed channel. *)
Definition close_chan (cl : gset listener) (l : listener) : option (gset listener) :=
  if decide (l ∈ cl) then None else Some ({[l]} ∪ cl).

(** [func (e *Events) unsubscribe(l listener) bool] *)
Definition unsubscribe (w : World) (l : listener) : option (World * bool) :=
  match find_subscriber (subscribers (bus w)) l with
  | Some i =>
      cl ← close_chan (closed w) l;
      Some ({| bus := {| events := events (bus w); events_cap := events_cap (bus w);
                         subscribers := take i (subscribers (bus w))
                                        ++ drop (S i) (subscribers (bus w)) |};
               closed := cl; next_chan := next_chan w; inbox := inbox w |}, true)
  | None => Some (w, false)
  end.

(** [listener := make(chan *jsonmessage.JSONMessage); e.subscribe(listener)] *)
Definition make_subscribe (w : World) : World * listener :=
  let l := next_chan w in
  ({| bus := subscribe (bus w) l; closed := closed w;
      next_chan := S (next_chan w); inbox := inbox w |}, l).

(** One call of [log] as data: its three arguments, the clock reading and the
    receivers' readiness at that moment. *)
Record publish : Type := mkPublish {
  p_action : string;
  p_id : string;
  p_from : string;
  p_now : Z;
  p_ready : listener → option Z
}.

(** The record [log] builds for a call. *)
Definition record_of (p : publish) : JSONMessage :=
  {| Status := p_action p; ID := p_id p; From_ := p_from p; Time_ := p_now p |}.

(** A sequence of calls of [log], in order. *)
Fixpoint publish_all (w : World) (ps : list publish) : option World :=
  match ps with
  | [] => Some w
  | p :: rest =>
      match log w (p_action p) (p_id p) (p_from p) (p_now p) (p_ready p) with
      | Some (w', _, _) => publish_all w' rest
      | None => None
      end
  end.

(** ** Strings *)

(** [strings.Contains(s, sep)] for a separator of one byte, as in the
    package's only call, [strings.Contains(field, ":")]. *)
Fixpoint Contains (s : string) (sep : ascii) : bool :=
  match s with
  | EmptyString => false
  | String c s' => if decide (c = sep) then true else Contains s' sep
  end.

(** [strings.Split(s, sep)] for a separator of one byte: the pieces of [s]
    between the occurrences of [sep]; never an empty slice. *)
Fixpoint Split (s : string) (sep : ascii) : list string :=
  match s with
  | EmptyString => [""]
  | String c s' =>
      if decide (c = sep) then "" :: Split s' sep
      else match Split s' sep with
           | [] => [String c ""]
           | piece :: pieces => String c piece :: pieces
           end
  end.

(** The byte [':'] of the literals [":"] in [writeEvent]. *)
Definition colon : ascii := ":"%char.

(** ** The filter of [writeEvent] *)

(** The loop of the closure [isFiltered]: [false] as soon as a value equals
    the field or equals the piece of the field before its first [':']. *)
Fixpoint isFiltered_loop (field : string) (filter : list string) : bool :=
  match filter with
  | [] => true
  | v :: rest =>
      if decide (v = field) then false
      else if Contains field colon
                && bool_decide (Split field colon !! 0 = Some v)
      then false
      else isFiltered_loop field rest
  end.

(** [isFiltered := func(field string, filter []string) bool] *)
Definition isFiltered (field : string) (filter : list string) : bool :=
  if decide (length filter = 0) then false else isFiltered_loop field filter.

(** [filters.Args], a [map[string][]string]. *)
Abbreviation Args := (gmap string (list string)).

(** [eventFilters[k]]: the nil slice for a key that is not in the map. *)
Definition args_get (a : Args) (k : string) : list string := default [] (a !! k).

(** The condition of the [if] in [writeEvent], on the filters as the
    resolution loop left them. *)
Definition suppressed (event : JSONMessage) (eventFilters : Args) : bool :=
  isFiltered (Status event) (args_get eventFilters "event")
  || isFiltered (From_ event) (args_get eventFilters "image")
  || isFiltered (ID event) (args_get eventFilters "container").

(** What the loop of [isFiltered] accepts as a match of [field] by the
    filter value [v]: the field itself, or the field's part before its first
    [':']. *)
Definition matches (field v : string) : Prop :=
  v = field ∨ ∃ rest, field = v +:+ String colon rest ∧ Contains v colon = false.

(** The three dimensions of a filter set, the key each has in
    [filters.Args] and the field of the record it is compared with, as the
    condition of [writeEvent] pairs them. *)
Inductive dimension : Type := ByStatus | BySource | BySubject.

Definition dim_key (d : dimension) : string :=
  match d with
  | ByStatus => "event"
  | BySource => "image"
  | BySubject => "container"
  end.

Definition dim_field (d : dimension) (event : JSONMessage) : string :=
  match d with
  | ByStatus => Status event
  | BySource => From_ event
  | BySubject => ID event
  end.

(** The match rule as the specification words it, written out from its
    sentence: equality on every dimension, and on the source dimension also a
    source that starts with the value followed by the separator. *)
Definition spec_matches (d : dimension) (field v : string) : Prop :=
  field = v ∨ (d = BySource ∧ ∃ rest, field = v +:+ String colon rest).

(** ** Collaborators *)

Definition error : Type := string.

(** [*engine.Engine], as far as [GetContainerId] uses it: running the job
    [container_inspect name] either fails or leaves bytes on its standard
    output. *)
Record Engine : Type := mkEngine {
  container_inspect : string → option string
}.

(** [job.Stdout]: the chunks handed to [Write] so far, and the writer's
    verdict on a chunk given the earlier ones. *)
Record Output : Type := mkOutput {
  calls : list string;
  Write_err : list string → string → option error
}.

(** [job.Stdout.Write(b)] *)
Definition Write (o : Output) (b : string) : Output * option error :=
  ({| calls := calls o ++ [b]; Write_err := Write_err o |}, Write_err o (calls o) b).

(** [*engine.Job], as far as the handlers use it. *)
Record Job : Type := mkJob {
  Name : string;
  JobArgs : list string;
  Getenv : string → string;
  GetenvInt64 : string → Z;
  Stdout : Output;
  Eng : Engine
}.

Definition set_Stdout (job : Job) (o : Output) : Job :=
  {| Name := Name job; JobArgs := JobArgs job; Getenv := Getenv job;
     GetenvInt64 := GetenvInt64 job; Stdout := o; Eng := Eng job |}.

(** ** The handler [Log] *)

(** The goroutine started by [go e.log(job.Args[0], job.Args[1], job.Args[2])]. *)
Record goroutine : Type := GoLog {
  go_action : string;
  go_id : string;
  go_from : string
}.

(** [fmt.Errorf("usage: %s ACTION ID FROM", job.Name)] *)
Definition usage (job : Job) : error :=
  "usage: " +:+ Name job +:+ " ACTION ID FROM".

(** [func (e *Events) Log(job *engine.Job) error]: the world as the call
    leaves it, the error, and the goroutine it started. *)
Definition Log (w : World) (job : Job) : World * option error * option goroutine :=
  if decide (length (JobArgs job) ≠ 3) then (w, Some (usage job), None)
  else (w, None,
        Some (GoLog (JobArgs job !!! 0) (JobArgs job !!! 1) (JobArgs job !!! 2))).

(** The goroutine, once scheduled. *)
Definition run_goroutine (w : World) (g : goroutine) (now : Z)
    (ready : listener → option Z) : option (World * list (listener * offer) * Z) :=
  log w (go_action g) (go_id g) (go_from g) now ready.

(** ** Sessions of [Get] *)

(** The condition of [writeCurrent]:
    [event.Time >= since && (event.Time <= until || until == 0)] *)
Definition in_window (since until : Z) (event : JSONMessage) : bool :=
  (Time_ event >=? since)%Z && ((Time_ event <=? until)%Z || (until =? 0)%Z).

(** What the [select] of [Get] can observe: a record received on the
    listener, the listener closed ([ok == false]), or the timer's channel
    ready. *)
Inductive incoming : Type :=
  | Recv (event : JSONMessage)
  | ChanClosed
  | TimerFired.

(** How far a call of [Get] got on the observations it was given: it
    returned, or it is waiting in the [select]. *)
Inductive outcome : Type :=
  | Returned (err : option error)
  | Blocked.

(** The state of a session: the world, the job, the session's filters and
    the listener it registered (none before [make]). *)
Record session : Type := mkSession {
  s_world : World;
  s_job : Job;
  s_filters : option Args;
  s_listener : option listener;
  s_outcome : outcome
}.

(** ** Invariants *)

(** The state of a bus that was built by [New] and has only published. *)
Definition history_inv (w : World) (rs : list JSONMessage) : Prop :=
  events_cap (bus w) = eventsLimit ∧ subscribers (bus w) = [] ∧
  events (bus w) = drop (length rs - eventsLimit) rs.

(** What holds of a bus that is only used through the package: no listener
    is registered twice, and a registered listener is an open channel that
    [make] has handed out. *)
Definition bus_inv (w : World) : Prop :=
  NoDup (subscribers (bus w))
  ∧ (∀ l, l ∈ subscribers (bus w) → (l ∉ closed w) ∧ l < next_chan w)
  ∧ (∀ l, l ∈ closed w → l < next_chan w).

(** The worlds the package's own calls lead to from a new bus: [log],
    the [make] and [subscribe] of [Get], and [unsubscribe]. *)
Inductive reachable : World → Prop :=
  | reach_fresh : reachable fresh_world
  | reach_log w action id from now ready w' tr t :
      reachable w → log w action id from now ready = Some (w', tr, t) → reachable w'
  | reach_subscribe w :
      reachable w → reachable (make_subscribe w).1
  | reach_unsubscribe w l w' found :
      reachable w → unsubscribe w l = Some (w', found) → reachable w'.

(** The buffer of a bus made by [New] keeps the capacity [New] gave it and
    never holds more than that. *)
Definition buffer_inv (e : Events) : Prop :=
  events_cap e = eventsLimit ∧ length (events e) ≤ eventsLimit.

(** ** The history buffer *)

Lemma publish_all_app w ps qs :
  publish_all w (ps ++ qs) = publish_all w ps ≫= λ w', publish_all w' qs.
Proof.
  revert w. induction ps as [|p ps IH]; intros w; simpl; [done|].
  destruct (log w _ _ _ _ _) as [[[w' tr] t]|]; simpl; [apply IH|done].
Qed.

(** Shifting a non-empty slice left by one and storing in its last cell. *)
Lemma shift_store {A : Type} (l : list A) (x : A) :
  l ≠ [] →
  go_store (go_copy l (drop 1 l)) (Z.of_nat (length l) - 1) x = Some (drop 1 l ++ [x]).
Proof.
  intros Hl. unfold go_store, go_copy.
  assert (Hn : length l = S (length l - 1)) by (destruct l; [done|simpl; lia]).
  rewrite length_drop, Nat.min_r by lia.
  rewrite take_ge by (rewrite length_drop; lia).
  assert (Hlen : length (drop 1 l ++ drop (length l - 1) l) = length l).
  { rewrite length_app, !length_drop. lia. }
  rewrite Hlen, decide_True by lia. f_equal.
  replace (Z.to_nat (Z.of_nat (length l) - 1)) with (length (drop 1 l) + 0)
    by (rewrite length_drop; lia).
  rewrite insert_app_r.
  destruct (drop (length l - 1) l) as [|b r] eqn:Hd.
  - apply (f_equal length) in Hd. rewrite length_drop in Hd. simpl in Hd. lia.
  - apply (f_equal length) in Hd. rewrite length_drop in Hd. simpl in Hd.
    destruct r; [done|simpl in Hd; lia].
Qed.

Lemma log_history w rs p :
  history_inv w rs →
  ∃ w' tr t, log w (p_action p) (p_id p) (p_from p) (p_now p) (p_ready p) = Some (w', tr, t)
             ∧ history_inv w' (rs ++ [record_of p]).
Proof.
  intros (Hcap & Hsubs & Hev). unfold log, record_event. fold (record_of p).
  assert (Hlen : length (events (bus w)) = Nat.min (length rs) eventsLimit).
  { rewrite Hev, length_drop. lia. }
  destruct (decide (length (events (bus w)) = events_cap (bus w))) as [Hfull|Hroom].
  - rewrite shift_store.
    2:{ intros Hnil. rewrite Hnil, Hcap in Hfull. done. }
    cbn [mbind option_bind subscribers]. rewrite Hsubs. cbn [fanout mbind option_bind].
    eexists _, _, _. split; [done|].
    unfold history_inv. cbn [bus events events_cap subscribers].
    split; [done|]. split; [done|].
    rewrite Hev, drop_drop, length_app. cbn [length].
    rewrite Hcap in Hfull.
    replace (length rs + 1 - eventsLimit) with (length rs - eventsLimit + 1) by lia.
    rewrite drop_app_le; [done|]. unfold eventsLimit in *. lia.
  - unfold go_append. cbn [mbind option_bind subscribers]. rewrite Hsubs.
    cbn [fanout mbind option_bind].
    eexists _, _, _. split; [done|].
    rewrite Hcap in Hroom.
    unfold history_inv. cbn [bus events events_cap subscribers].
    split; [|split; [done|]].
    + rewrite decide_True; [done|]. lia.
    + rewrite Hev, length_app. cbn [length].
      replace (length rs - eventsLimit) with 0 by lia.
      replace (length rs + 1 - eventsLimit) with 0 by lia.
      by rewrite !drop_0.
Qed.

Lemma publish_all_history ps :
  ∃ w, publish_all fresh_world ps = Some w ∧ history_inv w (record_of <$> ps).
Proof.
  induction ps as [|p ps IH] using rev_ind.
  - exists fresh_world. split; [done|]. by repeat split.
  - destruct IH as (w & Hrun & Hinv).
    destruct (log_history w _ p Hinv) as (w' & tr & t & Hlog & Hinv').
    exists w'. rewrite publish_all_app, Hrun. simpl. rewrite Hlog.
    split; [done|]. by rewrite fmap_app.
Qed.

(** C1. On a bus fresh from [New], any sequence of [n] calls of [log] runs to
    completion and leaves in the history: all [n] records in the order of the
    calls when [n ≤ 64]; the last 64 of them, in the order of the calls, when
    [n > 64] (each call at capacity having dropped the oldest record); and
    after every prefix of the sequence the history holds at most 64
    records. *)
Theorem history_is_last_eventsLimit (ps : list publish) :
  ∃ w, publish_all fresh_world ps = Some w
    ∧ (length ps ≤ eventsLimit → events (bus w) = record_of <$> ps)
    ∧ (length ps > eventsLimit →
         events (bus w) = drop (length ps - eventsLimit) (record_of <$> ps)
         ∧ length (events (bus w)) = eventsLimit)
    ∧ (∀ k, ∃ wk, publish_all fresh_world (take k ps) = Some wk
                ∧ length (events (bus wk)) ≤ eventsLimit
                ∧ events (bus wk) `suffix_of` (record_of <$> take k ps)).
Proof.
  destruct (publish_all_history ps) as (w & Hrun & _ & _ & Hev).
  rewrite length_fmap in Hev.
  exists w. split; [done|]. split; [|split].
  - intros Hle. rewrite Hev. replace (length ps - eventsLimit) with 0 by lia.
    apply drop_0.
  - intros Hgt. split; [done|]. rewrite Hev, length_drop, length_fmap. lia.
  - intros k. destruct (publish_all_history (take k ps)) as (wk & Hk & _ & _ & Hevk).
    exists wk. split; [done|]. rewrite Hevk. split.
    + rewrite length_drop. lia.
    + apply suffix_drop.
Qed.

(** ** Properties of the filter *)

Lemma Split_cons s sep : ∃ piece pieces, Split s sep = piece :: pieces.
Proof.
  induction s as [|c s (piece & pieces & IH)]; simpl; [by eexists _, _|].
  destruct (decide (c = sep)); [by eexists _, _|].
  rewrite IH. by eexists _, _.
Qed.

Lemma Contains_append v sep rest : Contains (v +:+ String sep rest) sep = true.
Proof.
  induction v as [|c v IH]; simpl.
  - by rewrite decide_True.
  - by destruct (decide (c = sep)).
Qed.

(** The first piece of [Split] is the part of the string before the first
    separator. *)
Lemma Split_first s sep v :
  Contains s sep = true →
  Split s sep !! 0 = Some v ↔
  ∃ rest, s = v +:+ String sep rest ∧ Contains v sep = false.
Proof.
  revert v. induction s as [|c s IH]; intros v Hc; simpl in *; [done|].
  destruct (decide (c = sep)) as [->|Hne].
  - simpl. split.
    + intros [= <-]. by exists s.
    + intros (rest & Heq & Hv). destruct v as [|c' v]; [done|].
      simpl in *. injection Heq as <- _. by rewrite decide_True in Hv.
  - destruct (Split_cons s sep) as (piece & pieces & Hs). rewrite Hs. simpl.
    split.
    + intros [= <-]. destruct (IH piece Hc) as [IH1 _].
      rewrite Hs in IH1. destruct (IH1 eq_refl) as (rest & -> & Hp).
      exists rest. simpl. by rewrite decide_False.
    + intros (rest & Heq & Hv). destruct v as [|c' v].
      * simpl in Heq. by injection Heq as -> _.
      * simpl in *. injection Heq as <- Hs'.
        rewrite decide_False in Hv by done.
        destruct (IH v Hc) as [_ IH2]. rewrite Hs in IH2. simpl in IH2.
        specialize (IH2 (ex_intro _ rest (conj Hs' Hv))). by injection IH2 as ->.
Qed.

Lemma isFiltered_loop_false field filter :
  isFiltered_loop field filter = false ↔ ∃ v, v ∈ filter ∧ matches field v.
Proof.
  induction filter as [|v filter IH]; simpl.
  - split; [done|]. intros (v & Hin & _). by apply elem_of_nil in Hin.
  - destruct (decide (v = field)) as [Heq|Hne].
    { split; [|done]. intros _. exists v. split; [left|by left]. }
    destruct (Contains field colon) eqn:Hc; simpl.
    + case_bool_decide as Hsp.
      * split; [|done]. intros _. exists v. split; [left|].
        right. by apply Split_first.
      * rewrite IH. split.
        -- intros (v' & Hin & Hm). exists v'. split; [by right|done].
        -- intros (v' & Hin & Hm). apply elem_of_cons in Hin as [->|Hin]; [|eauto].
           destruct Hm as [?|Hm]; [done|]. by apply Split_first in Hm.
    + rewrite IH. split.
      * intros (v' & Hin & Hm). exists v'. split; [by right|done].
      * intros (v' & Hin & Hm). apply elem_of_cons in Hin as [->|Hin]; [|eauto].
        destruct Hm as [?|(rest & -> & _)]; [done|].
        by rewrite Contains_append in Hc.
Qed.

(** A dimension lets a record through exactly when its filter is empty or
    one of its values matches the record's field. *)
Lemma isFiltered_false field filter :
  isFiltered field filter = false ↔ filter = [] ∨ ∃ v, v ∈ filter ∧ matches field v.
Proof.
  unfold isFiltered. destruct filter as [|v filter].
  - split; [by left|done].
  - rewrite decide_False by done. rewrite isFiltered_loop_false.
    split; [by right|]. by intros [?|?].
Qed.

Lemma isFiltered_nil field : isFiltered field [] = false.
Proof. done. Qed.

Lemma suppressed_dims event eventFilters :
  suppressed event eventFilters = true ↔
  ∃ d, isFiltered (dim_field d event) (args_get eventFilters (dim_key d)) = true.
Proof.
  unfold suppressed. rewrite !orb_true_iff. split.
  - intros [[H|H]|H]; [by exists ByStatus|by exists BySource|by exists BySubject].
  - intros ([] & H); simpl in H; tauto.
Qed.

Lemma suppressed_single d event filter :
  suppressed event {[dim_key d := filter]} = isFiltered (dim_field d event) filter.
Proof.
  unfold suppressed, args_get.
  destruct d; simpl;
    repeat (rewrite lookup_singleton_eq || rewrite lookup_singleton_ne by done);
    simpl; rewrite ?isFiltered_nil, ?orb_false_r; done.
Qed.

(** C3, amended. On each of the three dimensions alike, with a non-empty
    filter, a record gets through exactly when some filter value equals the
    record's field or equals the part of the field before its first [':']. *)
Theorem filter_match_rule (d : dimension) (event : JSONMessage) (filter : list string) :
  filter ≠ [] →
  suppressed event {[dim_key d := filter]} = false ↔
  ∃ v, v ∈ filter ∧
       (v = dim_field d event
        ∨ ∃ rest, dim_field d event = v +:+ String colon rest ∧ Contains v colon = false).
Proof.
  intros Hne. rewrite suppressed_single, isFiltered_false. unfold matches.
  split; [|by right]. by intros [?|?].
Qed.

(** A list of empty strings filters out every field that is neither empty
    nor begins with [':']. *)
Lemma isFiltered_empty_values field filter :
  filter ≠ [] → (∀ v, v ∈ filter → v = "") →
  field ≠ "" → (∀ rest, field ≠ String colon rest) →
  isFiltered field filter = true.
Proof.
  intros Hne Hall Hfield Hcolon.
  destruct (isFiltered field filter) eqn:Hf; [done|].
  apply isFiltered_false in Hf as [?|(v & Hin & Hm)]; [done|].
  apply Hall in Hin as ->.
  destruct Hm as [?|(rest & Heq & _)]; [done|]. by apply Hcolon in Heq.
Qed.

Lemma suppressed_empty event : suppressed event ∅ = false.
Proof. unfold suppressed, args_get. by rewrite !lookup_empty. Qed.

Lemma in_window_spec since until event :
  in_window since until event = true ↔
  (since ≤ Time_ event)%Z ∧ ((Time_ event ≤ until)%Z ∨ until = 0%Z).
Proof.
  unfold in_window.
  rewrite andb_true_iff, orb_true_iff, Z.geb_le, Z.leb_le, Z.eqb_eq. done.
Qed.

Lemma filter_window_empty since until evs :
  until ≠ 0%Z → (until < since)%Z → List.filter (in_window since until) evs = [].
Proof.
  intros Hu Hlt. induction evs as [|event evs IH]; simpl; [done|].
  destruct (in_window since until event) eqn:Hw; [|done].
  apply in_window_spec in Hw. lia.
Qed.

(** ** The registry *)

Lemma find_subscriber_Some subs l i :
  find_subscriber subs l = Some i → subs !! i = Some l ∧ l ∉ take i subs.
Proof.
  revert i. induction subs as [|s subs IH]; intros i; simpl; [done|].
  destruct (decide (s = l)) as [->|Hne].
  - intros [= <-]. split; [done|]. simpl. apply not_elem_of_nil.
  - destruct (find_subscriber subs l) as [j|]; simpl; [|done].
    intros [= <-]. destruct (IH j eq_refl) as [Hj Hnot]. split; [done|].
    simpl. rewrite not_elem_of_cons. done.
Qed.

Lemma find_subscriber_None subs l :
  find_subscriber subs l = None ↔ l ∉ subs.
Proof.
  induction subs as [|s subs IH]; simpl.
  - split; [intros _; apply not_elem_of_nil|done].
  - rewrite not_elem_of_cons. destruct (decide (s = l)) as [->|Hne].
    + split; [done|]. intros [? _]. done.
    + destruct (find_subscriber subs l) as [j|]; simpl.
      * split; [done|]. intros [_ H]. by apply IH in H.
      * split; [|done]. intros _. split; [done|]. by apply IH.
Qed.

Lemma find_subscriber_elem subs l :
  l ∈ subs → ∃ i, find_subscriber subs l = Some i.
Proof.
  intros Hin. destruct (find_subscriber subs l) as [i|] eqn:Hf; [by exists i|].
  by apply find_subscriber_None in Hf.
Qed.

Lemma find_subscriber_last subs l :
  l ∉ subs → find_subscriber (subs ++ [l]) l = Some (length subs).
Proof.
  induction subs as [|s subs IH]; simpl; intros Hl.
  - by rewrite decide_True.
  - apply not_elem_of_cons in Hl as [Hne Hl].
    rewrite decide_False by done. by rewrite IH.
Qed.

(** Cutting the cell [i] out of a slice without duplicates removes the
    element that was in it, and nothing else. *)
Lemma remove_cell (subs : list listener) i l :
  NoDup subs → subs !! i = Some l →
  NoDup (take i subs ++ drop (S i) subs)
  ∧ (l ∉ take i subs ++ drop (S i) subs)
  ∧ (∀ l', l' ∈ take i subs ++ drop (S i) subs → l' ∈ subs ∧ l' ≠ l)
  ∧ S (length (take i subs ++ drop (S i) subs)) = length subs.
Proof.
  intros Hnd Hi. pose proof (take_drop_middle subs i l Hi) as Hmid.
  rewrite <- Hmid in Hnd. apply NoDup_app in Hnd as (Hnd1 & Hdisj & Hnd2).
  apply NoDup_cons in Hnd2 as [Hl Hnd2].
  assert (Hnot : l ∉ (take i subs ++ drop (S i) subs)).
  { rewrite elem_of_app. intros [H|H]; [|done].
    apply (Hdisj l H). left. }
  split; [|split; [done|split]].
  - apply NoDup_app. split; [done|]. split; [|done].
    intros x Hx Hx'. apply (Hdisj x Hx). by right.
  - intros l' Hl'. split.
    + rewrite <- Hmid. rewrite elem_of_app in Hl'. rewrite elem_of_app, elem_of_cons. tauto.
    + intros ->. done.
  - rewrite <- Hmid at 3. rewrite !length_app. simpl. lia.
Qed.

Lemma record_event_subscribers e jm e' :
  record_event e jm = Some e' → subscribers e' = subscribers e.
Proof.
  unfold record_event. destruct (decide _).
  - destruct (go_store _ _ _); simpl; [|done]. by intros [= <-].
  - simpl. by intros [= <-].
Qed.

Lemma log_frame w action id from now ready w' tr t :
  log w action id from now ready = Some (w', tr, t) →
  subscribers (bus w') = subscribers (bus w)
  ∧ closed w' = closed w ∧ next_chan w' = next_chan w.
Proof.
  unfold log.
  destruct (record_event (bus w) _) as [e|] eqn:He; simpl; [|done].
  destruct (fanout _ _ _ _) as [[[got tr'] t']|]; simpl; [|done].
  intros [= <- _ _]. simpl. by rewrite (record_event_subscribers _ _ _ He).
Qed.

Lemma unsubscribe_found w l i :
  bus_inv w → find_subscriber (subscribers (bus w)) l = Some i →
  unsubscribe w l
  = Some ({| bus := {| events := events (bus w); events_cap := events_cap (bus w);
                       subscribers := take i (subscribers (bus w))
                                      ++ drop (S i) (subscribers (bus w)) |};
             closed := {[l]} ∪ closed w; next_chan := next_chan w;
             inbox := inbox w |}, true).
Proof.
  intros (_ & Hopen & _) Hf. unfold unsubscribe, close_chan. rewrite Hf.
  apply find_subscriber_Some in Hf as [Hi _].
  apply list_elem_of_lookup_2, Hopen in Hi as [Hcl _].
  by rewrite decide_False.
Qed.

Lemma unsubscribe_missing w l :
  l ∉ subscribers (bus w) → unsubscribe w l = Some (w, false).
Proof.
  intros Hl. unfold unsubscribe. apply find_subscriber_None in Hl. by rewrite Hl.
Qed.

Lemma unsubscribe_inv w l w' found :
  bus_inv w → unsubscribe w l = Some (w', found) → bus_inv w'.
Proof.
  intros Hinv Hun. destruct (find_subscriber (subscribers (bus w)) l) as [i|] eqn:Hf.
  - rewrite (unsubscribe_found _ _ _ Hinv Hf) in Hun. injection Hun as <- _.
    destruct Hinv as (Hnd & Hopen & Hcl).
    apply find_subscriber_Some in Hf as [Hi _].
    destruct (remove_cell _ _ _ Hnd Hi) as (Hnd' & _ & Hsub & _).
    split; [done|]. split; simpl.
    + intros l' Hl'. apply Hsub in Hl' as [Hl' Hne]. apply Hopen in Hl' as [? ?].
      split; [|done]. rewrite elem_of_union, elem_of_singleton. tauto.
    + intros l' Hl'. apply elem_of_union in Hl' as [Hl'|Hl']; [|by apply Hcl].
      apply elem_of_singleton in Hl' as ->.
      by apply list_elem_of_lookup_2, Hopen in Hi as [_ ?].
  - apply find_subscriber_None in Hf.
    rewrite (unsubscribe_missing _ _ Hf) in Hun. by injection Hun as <- _.
Qed.

Lemma make_subscribe_inv w : bus_inv w → bus_inv (make_subscribe w).1.
Proof.
  intros (Hnd & Hopen & Hcl). split; [|split]; simpl.
  - apply NoDup_app. split; [done|]. split; [|apply NoDup_singleton].
    intros l Hl Hl'. apply list_elem_of_singleton in Hl' as ->.
    apply Hopen in Hl. lia.
  - intros l Hl. apply elem_of_app in Hl as [Hl|Hl].
    + apply Hopen in Hl. split; [tauto|lia].
    + apply list_elem_of_singleton in Hl as ->. split; [|lia].
      intros Hl. apply Hcl in Hl. lia.
  - intros l Hl. apply Hcl in Hl. lia.
Qed.

Lemma reachable_inv w : reachable w → bus_inv w.
Proof.
  induction 1 as [|w action id from now ready w' tr t _ IH Hlog
                  |w _ IH|w l w' found _ IH Hun].
  - split; [constructor|]. split; intros l Hl; [by apply elem_of_nil in Hl|].
    by apply elem_of_empty in Hl.
  - destruct (log_frame _ _ _ _ _ _ _ _ _ Hlog) as (Hs & Hc & Hn).
    unfold bus_inv. by rewrite Hs, Hc, Hn.
  - by apply make_subscribe_inv.
  - by eapply unsubscribe_inv.
Qed.

(** C5. On a bus reached through the package's own calls, [unsubscribe] of a
    registered listener closes its channel, takes it out of the registry and
    returns [true]; called again on the same listener it returns [false],
    does not panic and leaves the world, the set of closed channels included,
    as it is, so that over the two calls the subscriber count went down by
    exactly one.  [unsubscribe] of a listener that is not registered returns
    [false] and changes nothing. *)
Theorem unsubscribe_once (w : World) (l : listener) :
  reachable w →
  (l ∈ subscribers (bus w) →
     ∃ w1, unsubscribe w l = Some (w1, true)
       ∧ (l ∉ subscribers (bus w1))
       ∧ closed w1 = {[l]} ∪ closed w
       ∧ (l ∉ closed w)
       ∧ S (subscribersCount (bus w1)) = subscribersCount (bus w)
       ∧ (∀ l', l' ∈ subscribers (bus w1) ↔ l' ∈ subscribers (bus w) ∧ l' ≠ l)
       ∧ events (bus w1) = events (bus w)
       ∧ unsubscribe w1 l = Some (w1, false))
  ∧ (l ∉ subscribers (bus w) → unsubscribe w l = Some (w, false)).
Proof.
  intros Hreach. pose proof (reachable_inv _ Hreach) as Hinv.
  split; [|apply unsubscribe_missing].
  intros Hin. destruct (find_subscriber_elem _ _ Hin) as [i Hf].
  eexists. split; [by apply unsubscribe_found|].
  destruct Hinv as (Hnd & Hopen & _).
  pose proof (find_subscriber_Some _ _ _ Hf) as [Hi _].
  destruct (remove_cell _ _ _ Hnd Hi) as (_ & Hnot & Hsub & Hlen).
  simpl. repeat split; try done.
  - by apply Hopen in Hin as [? _].
  - by apply Hsub.
  - by apply Hsub.
  - intros [Hl' Hne]. rewrite <- (take_drop_middle _ _ _ Hi) in Hl'.
    rewrite elem_of_app, elem_of_cons in Hl'. rewrite elem_of_app.
    destruct Hl' as [?|[?|?]]; [by left|done|by right].
  - by apply unsubscribe_missing.
Qed.

(** ** The fanout of [log] *)

Lemma select_send_spec ready :
  (select_send ready).1 = (if within_grace ready then Delivered else TimedOut)
  ∧ (0 ≤ (select_send ready).2 ≤ grace_ms)%Z.
Proof.
  unfold select_send, within_grace, grace_ms.
  destruct ready as [d|]; simpl; [|split; [done|lia]].
  destruct (d <? 100)%Z eqn:Hd; simpl; (split; [done|]); [apply Z.ltb_lt in Hd|]; lia.
Qed.

(** The loop of the fanout over open channels: it runs to its end, makes one
    offer per subscriber in the order of the registry, hands the record to
    those whose receiver shows up in time, and spends at most the grace
    period on each. *)
Lemma fanout_open cl ready jm subs :
  (∀ s, s ∈ subs → s ∉ cl) →
  ∃ got tr t, fanout cl ready jm subs = Some (got, tr, t)
    ∧ tr = (λ s, (s, if within_grace (ready s) then Delivered else TimedOut)) <$> subs
    ∧ got = (λ s, (s, jm)) <$> List.filter (λ s, within_grace (ready s)) subs
    ∧ (0 ≤ t ≤ grace_ms * Z.of_nat (length subs))%Z.
Proof.
  induction subs as [|s subs IH]; intros Hopen; simpl.
  - eexists _, _, _. split; [done|]. split; [done|]. split; [done|]. simpl. lia.
  - rewrite decide_False by (apply Hopen; left).
    destruct IH as (got & tr & t & -> & Htr & Hgot & Ht).
    { intros s' Hs'. apply Hopen. by right. }
    destruct (select_send_spec (ready s)) as [Ho Hw].
    destruct (select_send (ready s)) as [o t0]. simpl in Ho, Hw. subst o.
    eexists _, _, _. split; [done|]. split; [by rewrite Htr|]. split.
    + rewrite Hgot. by destruct (within_grace (ready s)).
    + lia.
Qed.

Lemma record_event_buffer e jm :
  buffer_inv e →
  ∃ e', record_event e jm = Some e' ∧ buffer_inv e'
        ∧ subscribers e' = subscribers e.
Proof.
  intros [Hcap Hlen]. unfold record_event.
  destruct (decide (length (events e) = events_cap e)) as [Hfull|Hroom].
  - rewrite shift_store.
    2:{ intros Hnil. rewrite Hnil, Hcap in Hfull. done. }
    simpl. eexists. split; [done|]. split; [|done]. split; simpl; [done|].
    rewrite length_app, length_drop. cbn [length]. unfold eventsLimit in *. lia.
  - simpl. eexists. split; [done|]. split; [|done]. split; simpl.
    + rewrite decide_True; [done|]. lia.
    + rewrite length_app. cbn [length]. unfold eventsLimit in *. lia.
Qed.

Lemma reachable_buffer w : reachable w → buffer_inv (bus w).
Proof.
  induction 1 as [|w action id from now ready w' tr t _ IH Hlog
                  |w _ IH|w l w' found _ IH Hun].
  - split; simpl; [done|lia].
  - unfold log in Hlog.
    destruct (record_event_buffer (bus w)
                {| Status := action; ID := id; From_ := from; Time_ := now |} IH)
      as (e & He & Hinv & _).
    rewrite He in Hlog. simpl in Hlog.
    destruct (fanout _ _ _ _) as [[[got tr'] t']|]; simpl in Hlog; [|done].
    by injection Hlog as <- _ _.
  - done.
  - unfold unsubscribe in Hun.
    destruct (find_subscriber _ _); [|by injection Hun as <- _].
    destruct (close_chan _ _); simpl in Hun; [|done].
    by injection Hun as <- _.
Qed.


(** ** The arity check of [Log] *)

(** C10. [Log] returns an error exactly when the job has other than three
    arguments.  In that case it starts no goroutine, so no record is appended
    and no subscriber is offered anything; the error is the usage message.
    With exactly three arguments it returns no error and leaves the recording
    to a goroutine that calls [log] on them; in both cases the bus is as it
    was when [Log] returns. *)
Theorem Log_arity (w : World) (job : Job) :
  (Log w job).1.1 = w
  ∧ ((Log w job).1.2 ≠ None ↔ length (JobArgs job) ≠ 3)
  ∧ (length (JobArgs job) ≠ 3 → Log w job = (w, Some (usage job), None))
  ∧ (∀ action id from, JobArgs job = [action; id; from] →
       Log w job = (w, None, Some (GoLog action id from))
       ∧ ∀ now ready, run_goroutine w (GoLog action id from) now ready
                      = log w action id from now ready).
Proof.
  unfold Log. split; [|split; [|split]].
  - by destruct (decide _).
  - destruct (decide _); simpl; [done|]. split; [done|]. intros H. done.
  - intros H. by rewrite decide_True.
  - intros action id from ->. simpl. done.
Qed.

(** ** More on the history *)

(** The history update of [log] on a buffer as [New] made it: the new record
    goes to the end, and the oldest one goes when the buffer was full. *)
Lemma record_event_last e jm :
  buffer_inv e →
  ∃ e', record_event e jm = Some e'
    ∧ events e' = drop (length (events e) + 1 - eventsLimit) (events e ++ [jm])
    ∧ subscribers e' = subscribers e
    ∧ buffer_inv e'.
Proof.
  intros Hinv. pose proof Hinv as [Hcap Hlen].
  destruct (record_event_buffer e jm Hinv) as (e' & He & Hinv' & Hsubs).
  exists e'. split; [done|]. split; [|done].
  unfold record_event in He.
  destruct (decide (length (events e) = events_cap e)) as [Hfull|Hroom].
  - rewrite shift_store in He.
    2:{ intros Hnil. rewrite Hnil, Hcap in Hfull. done. }
    simpl in He. injection He as <-. simpl.
    replace (length (events e) + 1 - eventsLimit) with 1 by lia.
    rewrite drop_app_le; [done|]. unfold eventsLimit in *. lia.
  - simpl in He. injection He as <-. simpl.
    replace (length (events e) + 1 - eventsLimit) with 0 by lia.
    by rewrite drop_0.
Qed.

(** The two things [log] needs of a world not to panic. *)
Definition log_ready (w : World) : Prop :=
  buffer_inv (bus w) ∧ ∀ s, s ∈ subscribers (bus w) → s ∉ closed w.

Lemma reachable_log_ready w : reachable w → log_ready w.
Proof.
  intros Hreach. split; [by apply reachable_buffer|].
  intros s Hs. by apply (reachable_inv _ Hreach) in Hs as [? _].
Qed.

Lemma log_last w action id from now ready :
  log_ready w →
  ∃ w' tr t, log w action id from now ready = Some (w', tr, t)
    ∧ events (bus w')
      = drop (length (events (bus w)) + 1 - eventsLimit)
             (events (bus w)
              ++ [{| Status := action; ID := id; From_ := from; Time_ := now |}])
    ∧ subscribers (bus w') = subscribers (bus w)
    ∧ closed w' = closed w ∧ next_chan w' = next_chan w
    ∧ log_ready w'.
Proof.
  intros [Hbuf Hopen]. unfold log. cbv zeta.
  destruct (record_event_last (bus w)
              {| Status := action; ID := id; From_ := from; Time_ := now |} Hbuf)
    as (e & He & Hev & Hsubs & Hbuf').
  destruct (fanout_open (closed w) ready
              {| Status := action; ID := id; From_ := from; Time_ := now |}
              (subscribers (bus w)) Hopen) as (got & tr & t & Hfan & _).
  eexists _, _, _. split.
  { rewrite He. cbn [mbind option_bind]. rewrite Hsubs, Hfan. reflexivity. }
  cbn [bus closed next_chan].
  split; [done|]. split; [done|]. split; [done|]. split; [done|].
  split; [done|]. cbn [bus closed]. intros s Hs. rewrite Hsubs in Hs. by apply Hopen.
Qed.

Lemma publish_all_last w ps :
  log_ready w →
  ∃ w', publish_all w ps = Some w'
    ∧ events (bus w')
      = drop (length (events (bus w)) + length ps - eventsLimit)
             (events (bus w) ++ (record_of <$> ps))
    ∧ subscribers (bus w') = subscribers (bus w)
    ∧ closed w' = closed w ∧ next_chan w' = next_chan w.
Proof.
  revert w. induction ps as [|p ps IH]; intros w Hready.
  - exists w. split; [done|]. split; [|done]. simpl.
    rewrite app_nil_r, Nat.add_0_r.
    destruct Hready as [[_ Hlen] _].
    replace (length (events (bus w)) - eventsLimit) with 0 by lia.
    by rewrite drop_0.
  - pose proof Hready as [[_ Hlen] _].
    destruct (log_last w (p_action p) (p_id p) (p_from p) (p_now p) (p_ready p) Hready)
      as (w1 & tr & t & Hlog & Hev1 & Hsubs1 & Hcl1 & Hn1 & Hready1).
    destruct (IH w1 Hready1) as (w' & Hrun & Hev & Hsubs & Hcl & Hn).
    exists w'. simpl. rewrite Hlog. split; [done|].
    split; [|by rewrite Hsubs, Hcl, Hn].
    rewrite Hev, Hev1. fold (record_of p).
    rewrite length_drop, length_app. cbn [length].
    rewrite <- drop_app_le by (rewrite length_app; simpl; lia).
    rewrite drop_drop, <- app_assoc. cbn [app fmap list_fmap].
    f_equal. lia.
Qed.

Lemma publish_all_reachable w ps w' :
  reachable w → publish_all w ps = Some w' → reachable w'.
Proof.
  revert w. induction ps as [|p ps IH]; intros w Hreach; simpl.
  - by intros [= <-].
  - destruct (log w _ _ _ _ _) as [[[w1 tr] t]|] eqn:Hlog; [|done].
    apply IH. by eapply reach_log.
Qed.

(** X1. From any world the package's calls lead to, with whatever listeners
    are registered, a sequence of [n] calls of [log] runs to completion and
    leaves in the history the last 64 of the records that were there
    followed by the [n] new ones, in that order; the registry and the closed
    channels are untouched. *)
Theorem publishes_keep_last (w : World) (ps : list publish) :
  reachable w →
  ∃ w', publish_all w ps = Some w'
    ∧ events (bus w')
      = drop (length (events (bus w)) + length ps - eventsLimit)
             (events (bus w) ++ (record_of <$> ps))
    ∧ length (events (bus w'))
      = Nat.min eventsLimit (length (events (bus w)) + length ps)
    ∧ subscribers (bus w') = subscribers (bus w)
    ∧ closed w' = closed w
    ∧ reachable w'.
Proof.
  intros Hreach.
  destruct (publish_all_last w ps (reachable_log_ready _ Hreach))
    as (w' & Hrun & Hev & Hsubs & Hcl & _).
  exists w'. split; [done|]. split; [done|]. split; [|split; [done|split; [done|]]].
  - rewrite Hev, length_drop, length_app, length_fmap. lia.
  - by eapply publish_all_reachable.
Qed.

(** X2. A record stays in the history through the 63 publishes that follow
    its own, moving one cell towards the front with each, and the 64th
    evicts it: after [n < 64] further publishes it is the [n+1]-th record
    from the end, and after 64 or more the history holds records of the
    later publishes only. *)
Theorem record_retention (w : World) (p : publish) (ps : list publish) :
  reachable w →
  ∃ w', publish_all w (p :: ps) = Some w'
    ∧ (length ps < eventsLimit →
       events (bus w') !! (length (events (bus w')) - 1 - length ps)
       = Some (record_of p))
    ∧ (eventsLimit ≤ length ps →
       events (bus w') = drop (length ps - eventsLimit) (record_of <$> ps)).
Proof.
  intros Hreach.
  destruct (publish_all_last w (p :: ps) (reachable_log_ready _ Hreach))
    as (w' & Hrun & Hev & _).
  destruct (reachable_buffer _ Hreach) as [_ Hlen].
  exists w'. split; [done|]. cbn [length fmap list_fmap] in Hev. split.
  - intros Hn. rewrite Hev, length_drop, length_app. cbn [length].
    rewrite length_fmap, lookup_drop.
    replace (length (events (bus w)) + S (length ps) - eventsLimit +
             (length (events (bus w)) + S (length ps)
              - (length (events (bus w)) + S (length ps) - eventsLimit)
              - 1 - length ps))
      with (length (events (bus w))) by lia.
    by apply list_lookup_middle.
  - intros Hn. rewrite Hev.
    change (events (bus w) ++ record_of p :: (record_of <$> ps))
      with (events (bus w) ++ [record_of p] ++ (record_of <$> ps)).
    rewrite app_assoc, drop_app_ge by (rewrite length_app; simpl; lia).
    rewrite length_app. cbn [length]. f_equal. lia.
Qed.

(** X3. Every world the package's calls lead to from a new bus keeps: no
    listener registered twice; every registered listener an open channel
    that [make] has handed out; the buffer at the capacity [New] gave it,
    holding at most 64 records. *)
Theorem reachable_world_invariant (w : World) :
  reachable w →
  NoDup (subscribers (bus w))
  ∧ (∀ l, l ∈ subscribers (bus w) → (l ∉ closed w) ∧ l < next_chan w)
  ∧ (∀ l, l ∈ closed w → l < next_chan w)
  ∧ events_cap (bus w) = eventsLimit
  ∧ length (events (bus w)) ≤ eventsLimit.
Proof.
  intros Hreach. destruct (reachable_inv _ Hreach) as (? & ? & ?).
  destruct (reachable_buffer _ Hreach) as [? ?]. done.
Qed.

(** ** More on the registry *)

(** The world with one more listener registered: [e.subscribe(l)]. *)
Definition with_subscriber (w : World) (l : listener) : World :=
  {| bus := subscribe (bus w) l; closed := closed w;
     next_chan := next_chan w; inbox := inbox w |}.

Lemma find_subscriber_middle pre post l :
  l ∉ pre → find_subscriber (pre ++ l :: post) l = Some (length pre).
Proof.
  induction pre as [|s pre IH]; simpl; intros Hl.
  - by rewrite decide_True.
  - apply not_elem_of_cons in Hl as [Hne Hl].
    rewrite decide_False by done. by rewrite IH.
Qed.

Lemma unsubscribe_middle w l pre post :
  subscribers (bus w) = pre ++ l :: post → l ∉ pre → l ∉ closed w →
  unsubscribe w l
  = Some ({| bus := {| events := events (bus w); events_cap := events_cap (bus w);
                       subscribers := pre ++ post |};
             closed := {[l]} ∪ closed w; next_chan := next_chan w;
             inbox := inbox w |}, true).
Proof.
  intros Hsubs Hpre Hopen. unfold unsubscribe, close_chan.
  rewrite Hsubs, find_subscriber_middle by done.
  rewrite decide_False by done. simpl.
  rewrite take_app_length.
  replace (S (length pre)) with (length (pre ++ [l])) by (rewrite length_app; simpl; lia).
  change (pre ++ l :: post) with (pre ++ [l] ++ post).
  by rewrite app_assoc, drop_app_length.
Qed.

Lemma unsubscribe_panics w l :
  unsubscribe w l = None ↔ l ∈ subscribers (bus w) ∧ l ∈ closed w.
Proof.
  unfold unsubscribe, close_chan.
  destruct (find_subscriber (subscribers (bus w)) l) as [i|] eqn:Hf.
  - apply find_subscriber_Some in Hf as [Hi _].
    apply list_elem_of_lookup_2 in Hi.
    destruct (decide (l ∈ closed w)); simpl; [done|].
    split; [done|]. by intros [_ ?].
  - apply find_subscriber_None in Hf. split; [done|]. by intros [? _].
Qed.

Lemma fanout_panics cl ready jm subs :
  fanout cl ready jm subs = None ↔ ∃ s, s ∈ subs ∧ s ∈ cl.
Proof.
  induction subs as [|s subs IH]; simpl.
  - split; [done|]. intros (s & Hs & _). by apply elem_of_nil in Hs.
  - destruct (decide (s ∈ cl)) as [Hs|Hs].
    + split; [|done]. intros _. exists s. split; [left|done].
    + destruct (select_send (ready s)) as [o t].
      destruct (fanout cl ready jm subs) as [[[got tr] t']|].
      * split; [done|]. intros (s' & Hs' & Hcl).
        apply elem_of_cons in Hs' as [->|Hs']; [done|].
        destruct IH as [_ IH]. discriminate IH. eauto.
      * split; [|done]. intros _. destruct IH as [IH _].
        destruct (IH eq_refl) as (s' & Hs' & Hcl). exists s'. split; [by right|done].
Qed.

(** X4. Registering a channel that is open and not yet registered and then
    unsubscribing it gives back the bus as it was, returns [true], and leaves
    the channel closed. *)
Theorem subscribe_unsubscribe (w : World) (l : listener) :
  l ∉ subscribers (bus w) → l ∉ closed w →
  subscribersCount (bus (with_subscriber w l)) = S (subscribersCount (bus w))
  ∧ unsubscribe (with_subscriber w l) l
    = Some ({| bus := bus w; closed := {[l]} ∪ closed w;
               next_chan := next_chan w; inbox := inbox w |}, true).
Proof.
  intros Hl Hopen. split.
  - unfold subscribersCount. simpl. rewrite length_app. simpl. lia.
  - rewrite (unsubscribe_middle (with_subscriber w l) l (subscribers (bus w)) []);
      [|done|done|done].
    simpl. rewrite app_nil_r. by destruct (bus w).
Qed.

(** X5. [unsubscribe] of an open channel takes out of the registry the first
    cell that holds it and only that one: the listeners before and after it
    keep their order, the history is untouched, and the channel is closed. *)
Theorem unsubscribe_first_occurrence (w : World) (l : listener)
    (pre post : list listener) :
  subscribers (bus w) = pre ++ l :: post → l ∉ pre → l ∉ closed w →
  ∃ w', unsubscribe w l = Some (w', true)
    ∧ subscribers (bus w') = pre ++ post
    ∧ events (bus w') = events (bus w)
    ∧ closed w' = {[l]} ∪ closed w
    ∧ inbox w' = inbox w.
Proof.
  intros Hsubs Hpre Hopen. eexists. split; [by apply unsubscribe_middle|]. done.
Qed.

(** X6. [unsubscribe] panics exactly when the channel is registered and
    already closed; in every other case it returns. *)
Theorem unsubscribe_panics_iff (w : World) (l : listener) :
  unsubscribe w l = None ↔ l ∈ subscribers (bus w) ∧ l ∈ closed w.
Proof. apply unsubscribe_panics. Qed.

(** X7. A channel registered twice cannot be unsubscribed twice: the first
    [unsubscribe] returns [true] and closes it, the second finds the other
    cell and panics in [close]. *)
Theorem double_registration_panics (w : World) (l : listener)
    (pre post : list listener) :
  subscribers (bus w) = pre ++ l :: post → l ∉ pre → l ∈ post → l ∉ closed w →
  ∃ w1, unsubscribe w l = Some (w1, true) ∧ unsubscribe w1 l = None.
Proof.
  intros Hsubs Hpre Hpost Hopen. eexists. split; [by apply unsubscribe_middle|].
  apply unsubscribe_panics. simpl. split.
  - apply elem_of_app. by right.
  - apply elem_of_union_l. by apply elem_of_singleton.
Qed.

(** X8. On a bus whose buffer is as [New] made it, [log] panics exactly when
    a registered listener is a closed channel. *)
Theorem log_panics_iff (w : World) (action id from : string) (now : Z)
    (ready : listener → option Z) :
  buffer_inv (bus w) →
  log w action id from now ready = None ↔
  ∃ s, s ∈ subscribers (bus w) ∧ s ∈ closed w.
Proof.
  intros Hbuf. unfold log. cbv zeta.
  destruct (record_event_last (bus w)
              {| Status := action; ID := id; From_ := from; Time_ := now |} Hbuf)
    as (e & He & _ & Hsubs & _).
  rewrite He. cbn [mbind option_bind]. rewrite Hsubs.
  rewrite <- (fanout_panics (closed w) ready
                {| Status := action; ID := id; From_ := from; Time_ := now |}).
  destruct (fanout _ _ _ _) as [[[got tr] t]|]; simpl; done.
Qed.

(** X9. The goroutine that [Log] starts for the arguments [action id from],
    whenever it runs on a world the package's calls lead to, puts the record
    with that status, identifier and source, stamped with the clock reading
    of that moment, at the end of the history. *)
Theorem Log_then_log (w w2 : World) (job : Job) (action id from : string)
    (now : Z) (ready : listener → option Z) :
  JobArgs job = [action; id; from] → reachable w2 →
  ∃ g w' tr t,
    Log w job = (w, None, Some g)
    ∧ run_goroutine w2 g now ready = Some (w', tr, t)
    ∧ last (events (bus w'))
      = Some {| Status := action; ID := id; From_ := from; Time_ := now |}
    ∧ length (events (bus w')) = Nat.min eventsLimit (S (length (events (bus w2)))).
Proof.
  intros Hargs Hreach.
  destruct (log_last w2 action id from now ready (reachable_log_ready _ Hreach))
    as (w' & tr & t & Hlog & Hev & _).
  destruct (reachable_buffer _ Hreach) as [_ Hlen].
  exists (GoLog action id from), w', tr, t.
  split; [by unfold Log; rewrite Hargs|]. split; [done|].
  rewrite Hev. split.
  - rewrite drop_app_le by (unfold eventsLimit; lia). apply last_snoc.
  - rewrite length_drop, length_app. cbn [length]. lia.
Qed.

(** ** More on the filter *)

(** [strings.Join(pieces, sep)] for a separator of one byte, the inverse of
    [Split]; used to state what [Split] returns. *)
Fixpoint Join (pieces : list string) (sep : ascii) : string :=
  match pieces with
  | [] => ""
  | piece :: rest =>
      match rest with
      | [] => piece
      | _ :: _ => piece +:+ String sep (Join rest sep)
      end
  end.

Lemma Join_Split s sep : Join (Split s sep) sep = s.
Proof.
  induction s as [|c s IH]; simpl; [done|].
  destruct (Split_cons s sep) as (piece & pieces & Hs). rewrite Hs in *.
  destruct (decide (c = sep)) as [->|Hne].
  - change (Join ("" :: piece :: pieces) sep)
      with (String sep (Join (piece :: pieces) sep)).
    by rewrite IH.
  - destruct pieces as [|piece' pieces].
    + simpl in *. by rewrite IH.
    + change (Join (String c piece :: piece' :: pieces) sep)
        with (String c (Join (piece :: piece' :: pieces) sep)).
      by rewrite IH.
Qed.

Lemma Split_pieces s sep : Forall (λ piece, Contains piece sep = false) (Split s sep).
Proof.
  induction s as [|c s IH]; simpl; [by repeat constructor|].
  destruct (decide (c = sep)) as [->|Hne]; [by constructor|].
  destruct (Split s sep) as [|piece pieces].
  - constructor; [|constructor]. simpl. by rewrite decide_False.
  - apply Forall_cons in IH as [Hp Hps]. constructor; [|done].
    simpl. by rewrite decide_False.
Qed.

Lemma Split_no_separator s sep : Contains s sep = false ↔ Split s sep = [s].
Proof.
  induction s as [|c s IH]; simpl; [done|].
  destruct (decide (c = sep)) as [->|Hne].
  - split; [done|]. intros H. discriminate H.
  - destruct (Split_cons s sep) as (piece & pieces & Hs). rewrite Hs in *.
    rewrite IH. split.
    + by intros [= -> ->].
    + by intros [= -> ->].
Qed.

(** X10. [strings.Split] as the filter uses it loses nothing: its pieces hold
    no separator, joined by the separator they give back the string, and a
    string is returned as its own single piece exactly when it holds no
    separator. *)
Theorem Split_round_trip (s : string) (sep : ascii) :
  Join (Split s sep) sep = s
  ∧ Forall (λ piece, Contains piece sep = false) (Split s sep)
  ∧ (Contains s sep = false ↔ Split s sep = [s]).
Proof.
  split; [apply Join_Split|]. split; [apply Split_pieces|apply Split_no_separator].
Qed.

Lemma bool_eq_false_iff (b1 b2 : bool) : (b1 = false ↔ b2 = false) → b1 = b2.
Proof. destruct b1, b2; intros [H1 H2]; try done; [by rewrite H2|by rewrite H1]. Qed.

(** X11. What [isFiltered] answers depends on the set of filter values only,
    not on their order or on repetitions. *)
Theorem isFiltered_set (field : string) (filter filter' : list string) :
  (∀ v, v ∈ filter ↔ v ∈ filter') →
  isFiltered field filter = isFiltered field filter'.
Proof.
  intros Hset. apply bool_eq_false_iff. rewrite !isFiltered_false.
  assert (Hnil : filter = [] ↔ filter' = []).
  { destruct filter as [|v filter], filter' as [|v' filter']; try done.
    - destruct (Hset v') as [_ H]. exfalso. eapply not_elem_of_nil, H. left.
    - destruct (Hset v) as [H _]. exfalso. eapply not_elem_of_nil, H. left. }
  rewrite Hnil. split.
  - intros [?|(v & Hv & Hm)]; [by left|]. right. exists v. by rewrite <- Hset.
  - intros [?|(v & Hv & Hm)]; [by left|]. right. exists v. by rewrite Hset.
Qed.

(** X12. A field that holds no [':'] gets through a non-empty filter exactly
    when the field itself is one of the values. *)
Theorem isFiltered_plain_field (field : string) (filter : list string) :
  Contains field colon = false →
  isFiltered field filter = false ↔ filter = [] ∨ field ∈ filter.
Proof.
  intros Hc. rewrite isFiltered_false. split.
  - intros [?|(v & Hv & [->|(rest & -> & _)])]; [by left|by right|].
    by rewrite Contains_append in Hc.
  - intros [?|Hin]; [by left|]. right. exists field. split; [done|by left].
Qed.

(** X13. A filter value that itself holds a [':'] lets a field through only
    by being equal to it: a value such as ["host:5000/repo"] does not match
    the field ["host:5000/repo:tag"]. *)
Theorem isFiltered_colon_value (field v : string) :
  Contains v colon = true →
  isFiltered field [v] = false ↔ field = v.
Proof.
  intros Hc. rewrite isFiltered_false. split.
  - intros [?|(v' & Hv' & Hm)]; [done|].
    apply list_elem_of_singleton in Hv' as ->.
    destruct Hm as [?|(rest & _ & Hv)]; [done|]. congruence.
  - intros ->. right. exists v. split; [left|by left].
Qed.

Lemma isFiltered_loop_app field filter1 filter2 :
  isFiltered_loop field (filter1 ++ filter2)
  = isFiltered_loop field filter1 && isFiltered_loop field filter2.
Proof.
  induction filter1 as [|v filter1 IH]; simpl; [done|].
  destruct (decide (v = field)); [done|].
  destruct (Contains field colon && bool_decide (Split field colon !! 0 = Some v)); done.
Qed.

(** X14. Values added to a non-empty filter can only let more through: a
    field is suppressed by two non-empty filters put together exactly when
    each of them suppresses it.  (The empty filter is the exception the code
    makes: it suppresses nothing.) *)
Theorem isFiltered_app (field : string) (filter1 filter2 : list string) :
  filter1 ≠ [] → filter2 ≠ [] →
  isFiltered field (filter1 ++ filter2)
  = isFiltered field filter1 && isFiltered field filter2.
Proof.
  intros H1 H2. unfold isFiltered.
  destruct filter1 as [|v1 filter1]; [done|]. destruct filter2 as [|v2 filter2]; [done|].
  rewrite !decide_False by done.
  apply (isFiltered_loop_app field (v1 :: filter1) (v2 :: filter2)).
Qed.

(** ** More on the fanout *)

Lemma fanout_none_ready cl ready jm subs :
  (∀ s, s ∈ subs → s ∉ cl) →
  (∀ s, s ∈ subs → within_grace (ready s) = false) →
  fanout cl ready jm subs
  = Some ([], (λ s, (s, TimedOut)) <$> subs, (grace_ms * Z.of_nat (length subs))%Z).
Proof.
  induction subs as [|s subs IH]; intros Hopen Hlate; simpl.
  - by rewrite Z.mul_0_r.
  - rewrite decide_False by (apply Hopen; left).
    rewrite IH;
      [|intros s' Hs'; apply Hopen; by right|intros s' Hs'; apply Hlate; by right].
    assert (Hs : select_send (ready s) = (TimedOut, grace_ms)).
    { specialize (Hlate s (list_elem_of_here _ _)). unfold select_send, within_grace in *.
      destruct (ready s) as [d|]; [by rewrite Hlate|done]. }
    rewrite Hs. do 2 f_equal. lia.
Qed.

Lemma fanout_all_ready cl ready jm subs :
  (∀ s, s ∈ subs → s ∉ cl) →
  (∀ s, s ∈ subs → ∃ d, ready s = Some d ∧ (d ≤ 0)%Z) →
  fanout cl ready jm subs
  = Some ((λ s, (s, jm)) <$> subs, (λ s, (s, Delivered)) <$> subs, 0%Z).
Proof.
  induction subs as [|s subs IH]; intros Hopen Hnow; simpl; [done|].
  rewrite decide_False by (apply Hopen; left).
  rewrite IH;
    [|intros s' Hs'; apply Hopen; by right|intros s' Hs'; apply Hnow; by right].
  destruct (Hnow s (list_elem_of_here _ _)) as (d & Hd & Hle).
  assert (Hs : select_send (ready s) = (Delivered, 0%Z)).
  { unfold select_send, grace_ms. rewrite Hd.
    replace (d <? 100)%Z with true by (symmetry; apply Z.ltb_lt; lia).
    f_equal. lia. }
  by rewrite Hs.
Qed.

(** X24. The two ends of the time a publish spends in the fanout.  When no
    receiver shows up within the grace period, [log] spends exactly the grace
    period on each of the [k] subscribers, 100 ms times [k] in all, and hands
    the record to nobody; when every receiver is already waiting, it spends
    no time and hands the record to every subscriber, in the order of the
    registry. *)
Theorem fanout_extremes (w : World) (action id from : string) (now : Z)
    (ready : listener → option Z) :
  reachable w →
  ((∀ l, l ∈ subscribers (bus w) → within_grace (ready l) = false) →
     ∃ w' tr, log w action id from now ready
              = Some (w', tr, (grace_ms * Z.of_nat (subscribersCount (bus w)))%Z)
            ∧ inbox w' = inbox w)
  ∧ ((∀ l, l ∈ subscribers (bus w) → ∃ d, ready l = Some d ∧ (d ≤ 0)%Z) →
     ∃ w' tr, log w action id from now ready = Some (w', tr, 0%Z)
            ∧ inbox w'
              = inbox w
                ++ ((λ l, (l, {| Status := action; ID := id; From_ := from;
                                 Time_ := now |})) <$> subscribers (bus w))).
Proof.
  intros Hreach. destruct (reachable_log_ready _ Hreach) as [Hbuf Hopen].
  destruct (record_event_last (bus w)
              {| Status := action; ID := id; From_ := from; Time_ := now |} Hbuf)
    as (e & He & _ & Hsubs & _).
  split; intros Hready; eexists _, _; unfold log; cbv zeta;
    rewrite He; cbn [mbind option_bind]; rewrite Hsubs.
  - rewrite (fanout_none_ready _ _ _ _ Hopen Hready). cbn [mbind option_bind].
    split; [reflexivity|]. simpl. by rewrite app_nil_r.
  - rewrite (fanout_all_ready _ _ _ _ Hopen Hready). cbn [mbind option_bind].
    split; [reflexivity|done].
Qed.

(** ** The handlers over their collaborators *)

Section Handlers.

Set Default Proof Using "Type".

(** [json.Marshal(event)]: the bytes, or [None] for an error. *)
Variable json_Marshal : JSONMessage → option string.

(** [json.NewDecoder(&buf).Decode(&out); out.ID]: the [ID] member read from
    the bytes, the empty string when there is none. *)
Variable decode_ID : string → string.

(** [filters.FromParam] *)
Variable filters_FromParam : string → error + Args.

(** [func GetContainerId(eng *engine.Engine, name string) string] *)
Definition GetContainerId (eng : Engine) (name : string) : string :=
  match container_inspect eng name with
  | None => ""
  | Some buf => decode_ID buf
  end.

(** [for i, cn := range eventFilters["container"] {
       eventFilters["container"][i] = GetContainerId(job.Eng, cn) }]:
    the cells of the slice are overwritten one by one, from index [i]. *)
Fixpoint resolve_from (eng : Engine) (i : nat) (cns : list string)
    (cell : list string) : list string :=
  match cns with
  | [] => cell
  | cn :: rest => resolve_from eng (S i) rest (<[i := GetContainerId eng cn]> cell)
  end.

(** The slice is shared with the map, so the caller's [eventFilters] sees the
    overwritten cells; a map without the key is left alone. *)
Definition resolve_containers (eng : Engine) (a : Args) : Args :=
  match a !! "container" with
  | Some cell => <["container" := resolve_from eng 0 cell cell]> a
  | None => a
  end.

(** [func writeEvent(job, event, eventFilters) error].  The result carries
    the job (its standard output advanced) and the filters as the call leaves
    them. *)
Definition writeEvent (job : Job) (event : JSONMessage) (eventFilters : Args)
    : Job * Args * option error :=
  let eventFilters := resolve_containers (Eng job) eventFilters in
  if suppressed event eventFilters then (job, eventFilters, None)
  else
    match json_Marshal event with
    | Some b =>
        let '(out, err) := Write (Stdout job) b in
        (set_Stdout job out, eventFilters, err)
    | None => (job, eventFilters, None)
    end.

(** The loop of [writeCurrent] over [e.events]. *)
Fixpoint writeCurrent_loop (job : Job) (evs : list JSONMessage) (since until : Z)
    (eventFilters : Args) : Job * Args * option error :=
  match evs with
  | [] => (job, eventFilters, None)
  | event :: rest =>
      if in_window since until event then
        match writeEvent job event eventFilters with
        | (job', eventFilters', Some err) => (job', eventFilters', Some err)
        | (job', eventFilters', None) =>
            writeCurrent_loop job' rest since until eventFilters'
        end
      else writeCurrent_loop job rest since until eventFilters
  end.

(** [func (e *Events) writeCurrent(job, since, until, eventFilters) error];
    the bus is only read, under [RLock]. *)
Definition writeCurrent (e : Events) (job : Job) (since until : Z)
    (eventFilters : Args) : Events * Job * Args * option error :=
  let '(job', eventFilters', err) :=
    writeCurrent_loop job (events e) since until eventFilters in
  (e, job', eventFilters', err).

(** Handing the records [evs] to [writeEvent] one after the other, up to the
    first error: the loop of [writeCurrent] without its condition. *)
Fixpoint write_each (job : Job) (evs : list JSONMessage) (eventFilters : Args)
    : Job * Args * option error :=
  match evs with
  | [] => (job, eventFilters, None)
  | event :: rest =>
      match writeEvent job event eventFilters with
      | (job', eventFilters', Some err) => (job', eventFilters', Some err)
      | (job', eventFilters', None) => write_each job' rest eventFilters'
      end
  end.

(** The loop [for { select { ... } }] of [Get].  [armed] is [false] when the
    timer has been stopped ([until == 0]); a stopped timer never makes its
    channel ready. *)
Fixpoint Get_live (armed : bool) (job : Job) (eventFilters : Args)
    (ins : list incoming) : Job * Args * outcome :=
  match ins with
  | [] => (job, eventFilters, Blocked)
  | Recv event :: rest =>
      match writeEvent job event eventFilters with
      | (job', eventFilters', Some err) => (job', eventFilters', Returned (Some err))
      | (job', eventFilters', None) => Get_live armed job' eventFilters' rest
      end
  | ChanClosed :: _ => (job, eventFilters, Returned None)
  | TimerFired :: rest =>
      if armed then (job, eventFilters, Returned None)
      else Get_live armed job eventFilters rest
  end.

(** [defer e.unsubscribe(listener)], run when [Get] returns. *)
Definition Get_return (w : World) (job : Job) (eventFilters : Args)
    (l : listener) (err : option error) : option session :=
  '(w', _) ← unsubscribe w l;
  Some {| s_world := w'; s_job := job; s_filters := Some eventFilters;
          s_listener := Some l; s_outcome := Returned err |}.

(** [func (e *Events) Get(job *engine.Job) error], run on the observations
    [ins] of its [select]. *)
Definition Get (w : World) (job : Job) (ins : list incoming) : option session :=
  let since := GetenvInt64 job "since" in
  let until := GetenvInt64 job "until" in
  match filters_FromParam (Getenv job "filters") with
  | inl err =>
      Some {| s_world := w; s_job := job; s_filters := None;
              s_listener := None; s_outcome := Returned (Some err) |}
  | inr eventFilters =>
      let armed := negb (until =? 0)%Z in
      let '(w, l) := make_subscribe w in
      let job := set_Stdout job (Write (Stdout job) "").1 in
      let '(_, job, eventFilters, err) :=
        if negb (since =? 0)%Z
        then writeCurrent (bus w) job since until eventFilters
        else (bus w, job, eventFilters, None) in
      match err with
      | Some err => Get_return w job eventFilters l (Some err)
      | None =>
          match Get_live armed job eventFilters ins with
          | (job, eventFilters, Returned err) => Get_return w job eventFilters l err
          | (job, eventFilters, Blocked) =>
              Some {| s_world := w; s_job := job; s_filters := Some eventFilters;
                      s_listener := Some l; s_outcome := Blocked |}
          end
      end
  end.

(** The session [Get] leaves behind when it returns [err] after its listener
    was registered: the registry as it was before the call, the session's
    channel closed. *)
Definition returned_session (w : World) (job : Job) (eventFilters : Args)
    (err : option error) : session :=
  {| s_world := {| bus := bus w; closed := {[next_chan w]} ∪ closed w;
                   next_chan := S (next_chan w); inbox := inbox w |};
     s_job := job; s_filters := Some eventFilters;
     s_listener := Some (next_chan w); s_outcome := Returned err |}.

(** The replay step of [Get]: [if since != 0 { e.writeCurrent(...) }]. *)
Definition Get_replay (e : Events) (job : Job) (eventFilters : Args)
    : Job * Args * option error :=
  let since := GetenvInt64 job "since" in
  let until := GetenvInt64 job "until" in
  if negb (since =? 0)%Z
  then writeCurrent_loop job (events e) since until eventFilters
  else (job, eventFilters, None).

(** *** Resolution of the container filter *)

Lemma resolve_from_app eng pre cns :
  resolve_from eng (length pre) cns (pre ++ cns) = pre ++ (GetContainerId eng <$> cns).
Proof.
  revert pre. induction cns as [|cn cns IH]; intros pre; simpl; [done|].
  replace (length pre) with (length pre + 0) at 2 by lia.
  rewrite insert_app_r. simpl.
  specialize (IH (pre ++ [GetContainerId eng cn])).
  rewrite length_app in IH. simpl in IH.
  rewrite <- !app_assoc in IH. simpl in IH.
  by rewrite Nat.add_1_r in IH.
Qed.

Lemma resolve_from_fmap eng cell :
  resolve_from eng 0 cell cell = GetContainerId eng <$> cell.
Proof. apply (resolve_from_app eng [] cell). Qed.

Lemma resolve_containers_get eng a :
  args_get (resolve_containers eng a) "container"
  = GetContainerId eng <$> args_get a "container".
Proof.
  unfold resolve_containers, args_get.
  destruct (a !! "container") as [cell|] eqn:Hc; simpl.
  - by rewrite lookup_insert_eq, resolve_from_fmap.
  - by rewrite Hc.
Qed.

Lemma resolve_containers_other eng a k :
  k ≠ "container" → args_get (resolve_containers eng a) k = args_get a k.
Proof.
  intros Hk. unfold resolve_containers, args_get.
  destruct (a !! "container") as [cell|] eqn:Hc; [|done].
  by rewrite lookup_insert_ne.
Qed.

Lemma resolve_containers_empty eng : resolve_containers eng ∅ = ∅.
Proof. unfold resolve_containers. by rewrite lookup_empty. Qed.

(** [writeEvent] on a record that the filters suppress, and on one they let
    through. *)
Lemma writeEvent_suppressed job event eventFilters :
  suppressed event (resolve_containers (Eng job) eventFilters) = true →
  writeEvent job event eventFilters
  = (job, resolve_containers (Eng job) eventFilters, None).
Proof. intros H. unfold writeEvent. by rewrite H. Qed.

Lemma writeEvent_passed job event eventFilters :
  suppressed event (resolve_containers (Eng job) eventFilters) = false →
  writeEvent job event eventFilters
  = match json_Marshal event with
    | Some b => (set_Stdout job (Write (Stdout job) b).1,
                 resolve_containers (Eng job) eventFilters,
                 (Write (Stdout job) b).2)
    | None => (job, resolve_containers (Eng job) eventFilters, None)
    end.
Proof. intros H. unfold writeEvent. rewrite H. by destruct (json_Marshal event). Qed.

(** C4. The filter is a conjunction over the three dimensions: [writeEvent]
    suppresses a record (writes nothing, returns no error) exactly when the
    record fails the check of at least one dimension, and hands it to the
    encoder and the writer exactly when it passes all three; a dimension whose
    filter is empty is passed by every record.  A record from ["repo:tag"]
    passes the source filter ["repo"]; a record of status ["start"] is
    suppressed by the status filter [["stop"]]. *)
Theorem filter_is_conjunction (job : Job) (event : JSONMessage) (eventFilters : Args) :
  let resolved := resolve_containers (Eng job) eventFilters in
  let fails d := isFiltered (dim_field d event) (args_get resolved (dim_key d)) = true in
  ((fails ByStatus ∨ fails BySource ∨ fails BySubject) →
     writeEvent job event eventFilters = (job, resolved, None))
  ∧ ((¬ fails ByStatus ∧ ¬ fails BySource ∧ ¬ fails BySubject) →
     ∀ b, json_Marshal event = Some b →
       writeEvent job event eventFilters
       = (set_Stdout job (Write (Stdout job) b).1, resolved, (Write (Stdout job) b).2)
       ∧ calls (Stdout (writeEvent job event eventFilters).1.1)
         = calls (Stdout job) ++ [b])
  ∧ (∀ d, args_get resolved (dim_key d) = [] → ¬ fails d)
  ∧ (∀ id time status,
       suppressed {| Status := status; ID := id; From_ := "repo:tag"; Time_ := time |}
                  {["image" := ["repo"]]} = false)
  ∧ (∀ id from time,
       suppressed {| Status := "start"; ID := id; From_ := from; Time_ := time |}
                  {["event" := ["stop"]]} = true).
Proof.
  intros resolved fails. subst fails. cbn beta.
  assert (Hpass : (¬ isFiltered (dim_field ByStatus event) (args_get resolved (dim_key ByStatus)) = true
                   ∧ ¬ isFiltered (dim_field BySource event) (args_get resolved (dim_key BySource)) = true
                   ∧ ¬ isFiltered (dim_field BySubject event) (args_get resolved (dim_key BySubject)) = true)
                  → suppressed event resolved = false).
  { intros (H1 & H2 & H3). apply not_true_is_false in H1, H2, H3.
    unfold suppressed. simpl in H1, H2, H3. by rewrite H1, H2, H3. }
  split; [|split; [|split; [|split]]].
  - intros H. apply writeEvent_suppressed. unfold suppressed.
    rewrite !orb_true_iff. simpl in H. tauto.
  - intros H b Hb. apply Hpass in H.
    rewrite (writeEvent_passed _ _ _ H), Hb. done.
  - intros d Hd. by rewrite Hd.
  - intros id time status. apply (suppressed_single BySource).
  - intros id from time. apply (suppressed_single ByStatus).
Qed.

(** C8, amended. Before the condition of [writeEvent] is evaluated every
    container filter value is replaced by what [GetContainerId] returns for
    it, which is the empty string when the [container_inspect] job fails.  A
    non-empty container filter whose values all resolve to the empty string
    suppresses every record whose [ID] is neither empty nor begins with
    [':']: nothing is written and no error is returned. *)
Theorem unresolved_container_filter (job : Job) (event : JSONMessage) (eventFilters : Args) :
  let resolved := resolve_containers (Eng job) eventFilters in
  args_get resolved "container"
    = GetContainerId (Eng job) <$> args_get eventFilters "container"
  ∧ (∀ name, container_inspect (Eng job) name = None →
             GetContainerId (Eng job) name = "")
  ∧ (args_get eventFilters "container" ≠ [] →
     (∀ cn, cn ∈ args_get eventFilters "container" → GetContainerId (Eng job) cn = "") →
     ID event ≠ "" → (∀ rest, ID event ≠ String colon rest) →
     writeEvent job event eventFilters = (job, resolved, None)).
Proof.
  intros resolved. split; [apply resolve_containers_get|]. split.
  - intros name Hname. unfold GetContainerId. by rewrite Hname.
  - intros Hne Hall Hid Hcolon. apply writeEvent_suppressed.
    unfold suppressed. rewrite resolve_containers_get.
    rewrite (isFiltered_empty_values (ID event)); [by rewrite !orb_true_r|..|done|done].
    + intros Hnil. apply fmap_nil_inv in Hnil. done.
    + intros v Hv. apply list_elem_of_fmap in Hv as (cn & -> & Hcn). by apply Hall.
Qed.

(** *** Replay *)

(** The loop of [writeCurrent] hands to [writeEvent] the records of the
    window, and only those, in the order of the buffer. *)
Lemma writeCurrent_loop_window job evs since until eventFilters :
  writeCurrent_loop job evs since until eventFilters
  = write_each job (List.filter (in_window since until) evs) eventFilters.
Proof.
  revert job eventFilters. induction evs as [|event evs IH]; intros job f; simpl; [done|].
  destruct (in_window since until event); simpl; [|apply IH].
  destruct (writeEvent job event f) as [[job' f'] [err|]]; [done|apply IH].
Qed.

(** With no filter and a writer that accepts every chunk, every record that
    serialises is written, in order. *)
Lemma write_each_unfiltered job evs :
  (∀ h b, Write_err (Stdout job) h b = None) →
  ∃ job', write_each job evs ∅ = (job', ∅, None)
          ∧ calls (Stdout job') = calls (Stdout job) ++ omap json_Marshal evs
          ∧ Write_err (Stdout job') = Write_err (Stdout job).
Proof.
  revert job. induction evs as [|event evs IH]; intros job Hok; simpl.
  - exists job. by rewrite app_nil_r.
  - rewrite writeEvent_passed
      by (rewrite resolve_containers_empty; apply suppressed_empty).
    rewrite resolve_containers_empty.
    destruct (json_Marshal event) as [b|] eqn:Hb; simpl.
    + rewrite Hok.
      destruct (IH (set_Stdout job {| calls := calls (Stdout job) ++ [b];
                                      Write_err := Write_err (Stdout job) |}))
        as (job' & Hrun & Hcalls & Herr); [done|].
      exists job'. split; [done|]. split; [|done].
      rewrite Hcalls. simpl. by rewrite <- app_assoc.
    + apply IH, Hok.
Qed.

(** C2. [writeCurrent] replays exactly the stored records whose time [t] has
    [since ≤ t] and ([t ≤ until] or [until = 0]), in the order of the buffer:
    these, and no others, are handed to [writeEvent]; with no filter and a
    writer in working order their encodings are what reaches the output.  The
    bus comes back as it was.  When [until ≠ 0] and [until < since] nothing
    is replayed and no error is returned. *)
Theorem replay_window (e : Events) (job : Job) (since until : Z) (eventFilters : Args) :
  let replayed := List.filter (in_window since until) (events e) in
  (∀ ev, ev ∈ replayed ↔
         ev ∈ events e ∧ (since ≤ Time_ ev)%Z ∧ ((Time_ ev ≤ until)%Z ∨ until = 0%Z))
  ∧ replayed `sublist_of` events e
  ∧ writeCurrent e job since until eventFilters
    = (let '(job', eventFilters', err) := write_each job replayed eventFilters in
       (e, job', eventFilters', err))
  ∧ (eventFilters = ∅ → (∀ h b, Write_err (Stdout job) h b = None) →
     ∃ job', writeCurrent e job since until eventFilters = (e, job', ∅, None)
             ∧ calls (Stdout job') = calls (Stdout job) ++ omap json_Marshal replayed)
  ∧ (until ≠ 0%Z → (until < since)%Z →
     replayed = []
     ∧ writeCurrent e job since until eventFilters = (e, job, eventFilters, None)).
Proof.
  intros replayed.
  assert (Hrun : writeCurrent e job since until eventFilters
    = (let '(job', eventFilters', err) := write_each job replayed eventFilters in
       (e, job', eventFilters', err))).
  { unfold writeCurrent. by rewrite writeCurrent_loop_window. }
  split; [|split; [|split; [done|split]]].
  - intros ev. unfold replayed.
    rewrite list_elem_of_In, filter_In, <- list_elem_of_In, in_window_spec. done.
  - unfold replayed. clear. induction (events e) as [|ev evs IH]; simpl; [done|].
    destruct (in_window since until ev); by constructor.
  - intros -> Hok. rewrite Hrun.
    destruct (write_each_unfiltered job replayed Hok) as (job' & -> & Hcalls & _).
    by exists job'.
  - intros Hu Hlt. rewrite Hrun. unfold replayed.
    by rewrite filter_window_empty.
Qed.

(** *** Sessions *)

(** C9. When the filter argument does not parse, [Get] returns the parser's
    error at once: no channel was made, no listener registered (the world,
    and with it the subscriber count, is as before), and the job's standard
    output has not been written to. *)
Theorem Get_malformed_filters (w : World) (job : Job) (ins : list incoming) (err : error) :
  filters_FromParam (Getenv job "filters") = inl err →
  ∃ s, Get w job ins = Some s
    ∧ s_outcome s = Returned (Some err)
    ∧ s_listener s = None
    ∧ s_world s = w
    ∧ subscribersCount (bus (s_world s)) = subscribersCount (bus w)
    ∧ s_job s = job
    ∧ calls (Stdout (s_job s)) = calls (Stdout job).
Proof.
  intros Hparse. unfold Get. rewrite Hparse. eexists. split; [done|]. done.
Qed.

Lemma Get_live_app armed job eventFilters ins1 ins2 :
  Get_live armed job eventFilters (ins1 ++ ins2)
  = match Get_live armed job eventFilters ins1 with
    | (job1, eventFilters1, Blocked) => Get_live armed job1 eventFilters1 ins2
    | done_ => done_
    end.
Proof.
  revert job eventFilters.
  induction ins1 as [|[event| |] ins1 IH]; intros job f; simpl; [done| |done|].
  - destruct (writeEvent job event f) as [[job' f'] [err|]]; [done|apply IH].
  - destruct armed; [done|apply IH].
Qed.

(** The deferred [unsubscribe] of [Get] undoes its [subscribe] and closes the
    channel [Get] made. *)
Lemma Get_return_clean w job eventFilters err :
  bus_inv w →
  Get_return (make_subscribe w).1 job eventFilters (next_chan w) err
  = Some {| s_world := {| bus := bus w; closed := {[next_chan w]} ∪ closed w;
                          next_chan := S (next_chan w); inbox := inbox w |};
            s_job := job; s_filters := Some eventFilters;
            s_listener := Some (next_chan w); s_outcome := Returned err |}.
Proof.
  intros (Hnd & Hopen & Hcl). unfold Get_return, unsubscribe, make_subscribe. simpl.
  assert (Hfresh : next_chan w ∉ subscribers (bus w)).
  { intros H. apply Hopen in H. lia. }
  rewrite find_subscriber_last by done.
  unfold close_chan. rewrite decide_False by (intros H; apply Hcl in H; lia).
  simpl. rewrite take_app_length.
  rewrite drop_ge by (rewrite length_app; simpl; lia).
  rewrite app_nil_r. by destruct (bus w).
Qed.

(** [Get] once the filters have parsed, step by step. *)
Lemma Get_parsed w job ins eventFilters :
  bus_inv w →
  filters_FromParam (Getenv job "filters") = inr eventFilters →
  Get w job ins
  = match Get_replay (bus w) (set_Stdout job (Write (Stdout job) "").1) eventFilters with
    | (job2, f2, Some err) => Some (returned_session w job2 f2 (Some err))
    | (job2, f2, None) =>
        match Get_live (negb (GetenvInt64 job "until" =? 0)%Z) job2 f2 ins with
        | (job3, f3, Returned err) => Some (returned_session w job3 f3 err)
        | (job3, f3, Blocked) =>
            Some {| s_world := (make_subscribe w).1; s_job := job3;
                    s_filters := Some f3; s_listener := Some (next_chan w);
                    s_outcome := Blocked |}
        end
    end.
Proof.
  intros Hinv Hparse. unfold Get, Get_replay, writeCurrent. rewrite Hparse.
  cbn [make_subscribe bus subscribe events set_Stdout GetenvInt64].
  destruct (negb (GetenvInt64 job "since" =? 0)%Z).
  - destruct (writeCurrent_loop _ _ _ _ _) as [[job2 f2] [err|]].
    + by apply Get_return_clean.
    + destruct (Get_live _ job2 f2 ins) as [[job3 f3] [err|]]; [|done].
      by apply Get_return_clean.
  - destruct (Get_live _ _ eventFilters ins) as [[job3 f3] [err|]]; [|done].
    by apply Get_return_clean.
Qed.

(** A session that is waiting goes on from where it is when more arrives. *)
Lemma Get_resume w job ins1 ins2 s1 :
  bus_inv w → Get w job ins1 = Some s1 → s_outcome s1 = Blocked →
  ∃ f1, s_filters s1 = Some f1
    ∧ Get w job (ins1 ++ ins2)
      = match Get_live (negb (GetenvInt64 job "until" =? 0)%Z) (s_job s1) f1 ins2 with
        | (job2, f2, Returned err) => Some (returned_session w job2 f2 err)
        | (job2, f2, Blocked) =>
            Some {| s_world := s_world s1; s_job := job2; s_filters := Some f2;
                    s_listener := s_listener s1; s_outcome := Blocked |}
        end.
Proof.
  intros Hinv Hget Hblocked.
  destruct (filters_FromParam (Getenv job "filters")) as [err|f] eqn:Hparse.
  { unfold Get in Hget. rewrite Hparse in Hget. injection Hget as <-. done. }
  rewrite (Get_parsed _ _ _ _ Hinv Hparse) in Hget.
  rewrite (Get_parsed _ _ _ _ Hinv Hparse).
  destruct (Get_replay _ _ _) as [[job2 f2] [err|]].
  { injection Hget as <-. done. }
  rewrite Get_live_app.
  destruct (Get_live _ job2 f2 ins1) as [[job3 f3] [err|]].
  { injection Hget as <-. done. }
  injection Hget as <-. simpl. by exists f3.
Qed.

(** A record that does not serialise leaves a waiting session as it is. *)
Lemma Get_drops_unserialisable w job ins1 s1 f1 event :
  bus_inv w →
  Get w job ins1 = Some s1 → s_outcome s1 = Blocked → s_filters s1 = Some f1 →
  json_Marshal event = None →
  writeEvent (s_job s1) event f1
  = (s_job s1, resolve_containers (Eng (s_job s1)) f1, None)
  ∧ (∀ evs, write_each (s_job s1) (event :: evs) f1
            = write_each (s_job s1) evs (resolve_containers (Eng (s_job s1)) f1))
  ∧ Get w job (ins1 ++ [Recv event])
    = Some {| s_world := s_world s1; s_job := s_job s1;
              s_filters := Some (resolve_containers (Eng (s_job s1)) f1);
              s_listener := s_listener s1; s_outcome := Blocked |}.
Proof.
  intros Hinv Hget Hblocked Hf1 Hm.
  assert (Hwe : writeEvent (s_job s1) event f1
                = (s_job s1, resolve_containers (Eng (s_job s1)) f1, None)).
  { unfold writeEvent. rewrite Hm. by destruct (suppressed _ _). }
  split; [done|]. split.
  - intros evs. simpl. by rewrite Hwe.
  - destruct (Get_resume w job ins1 [Recv event] s1 Hinv Hget Hblocked)
      as (f & Hf & ->).
    rewrite Hf1 in Hf. injection Hf as <-. simpl. by rewrite Hwe.
Qed.

(** A chunk the writer refuses ends the session with the writer's error. *)
Lemma Get_stops_on_write_error w job ins1 s1 f1 event b err :
  bus_inv w →
  Get w job ins1 = Some s1 → s_outcome s1 = Blocked → s_filters s1 = Some f1 →
  suppressed event (resolve_containers (Eng (s_job s1)) f1) = false →
  json_Marshal event = Some b →
  Write_err (Stdout (s_job s1)) (calls (Stdout (s_job s1))) b = Some err →
  ∃ job2,
    writeEvent (s_job s1) event f1
    = (job2, resolve_containers (Eng (s_job s1)) f1, Some err)
    ∧ calls (Stdout job2) = calls (Stdout (s_job s1)) ++ [b]
    ∧ (∀ evs, write_each (s_job s1) (event :: evs) f1
              = (job2, resolve_containers (Eng (s_job s1)) f1, Some err))
    ∧ (∀ rest,
         Get w job (ins1 ++ Recv event :: rest)
         = Some (returned_session w job2 (resolve_containers (Eng (s_job s1)) f1)
                   (Some err))).
Proof.
  intros Hinv Hget Hblocked Hf1 Hpass Hb Hw.
  assert (Hwe : writeEvent (s_job s1) event f1
                = (set_Stdout (s_job s1) (Write (Stdout (s_job s1)) b).1,
                   resolve_containers (Eng (s_job s1)) f1, Some err)).
  { rewrite writeEvent_passed by done. rewrite Hb. simpl. by rewrite Hw. }
  eexists. split; [exact Hwe|]. split; [done|]. split.
  - intros evs. simpl. by rewrite Hwe.
  - intros rest.
    destruct (Get_resume w job ins1 (Recv event :: rest) s1 Hinv Hget Hblocked)
      as (f & Hf & ->).
    rewrite Hf1 in Hf. injection Hf as <-. simpl. by rewrite Hwe.
Qed.

(** A write failure during the replay ends the call in the same way. *)
Lemma Get_replay_failure w job ins eventFilters job2 f2 err :
  bus_inv w →
  filters_FromParam (Getenv job "filters") = inr eventFilters →
  Get_replay (bus w) (set_Stdout job (Write (Stdout job) "").1) eventFilters
  = (job2, f2, Some err) →
  Get w job ins = Some (returned_session w job2 f2 (Some err)).
Proof. intros Hinv Hparse Hreplay. by rewrite (Get_parsed _ _ _ _ Hinv Hparse), Hreplay. Qed.

(** The world of [returned_session]: the session's listener is out of the
    registry, which is as before the call, and its channel is closed. *)
Lemma returned_session_clean w job eventFilters err :
  bus_inv w →
  let s := returned_session w job eventFilters err in
  s_listener s = Some (next_chan w)
  ∧ (next_chan w ∉ subscribers (bus (s_world s)))
  ∧ next_chan w ∈ closed (s_world s)
  ∧ subscribers (bus (s_world s)) = subscribers (bus w).
Proof.
  intros (_ & Hopen & _). simpl. split; [done|]. split; [|split; [|done]].
  - intros H. apply Hopen in H. lia.
  - apply elem_of_union_l. by apply elem_of_singleton.
Qed.

(** [s] is what [Get] leaves when it returns [err] from a session on [w]
    whose listener had been registered: the error is handed to the caller,
    the listener is out of the registry and its channel is closed. *)
Definition ended_with (w : World) (s : session) (job : Job) (err : error) : Prop :=
  s_outcome s = Returned (Some err)
  ∧ s_job s = job
  ∧ s_listener s = Some (next_chan w)
  ∧ (next_chan w ∉ subscribers (bus (s_world s)))
  ∧ next_chan w ∈ closed (s_world s)
  ∧ subscribers (bus (s_world s)) = subscribers (bus w).

Lemma returned_session_ended w job eventFilters err :
  bus_inv w → ended_with w (returned_session w job eventFilters (Some err)) job err.
Proof.
  intros Hinv. destruct (returned_session_clean w job eventFilters (Some err) Hinv)
    as (? & ? & ? & ?).
  by repeat split.
Qed.

(** C7. When [json.Marshal] fails on a record, [writeEvent] writes nothing
    and returns no error: the replay goes on with the next record and a
    waiting session stays waiting, its output untouched.  When instead the
    writer behind [job.Stdout] refuses the chunk, [writeEvent] returns the
    writer's error after that single call of [Write]; the replay and the
    session stop there, whatever else was to come, [Get] returns that error,
    and its deferred [unsubscribe] has taken the listener out of the registry
    and closed its channel.  The same holds when the refused chunk is one of
    the replay. *)
Theorem emission_failures (w : World) (job : Job) :
  reachable w →
  (∀ ins1 s1 f1 event,
     Get w job ins1 = Some s1 → s_outcome s1 = Blocked → s_filters s1 = Some f1 →
     json_Marshal event = None →
     let resolved := resolve_containers (Eng (s_job s1)) f1 in
     writeEvent (s_job s1) event f1 = (s_job s1, resolved, None)
     ∧ (∀ evs, write_each (s_job s1) (event :: evs) f1
               = write_each (s_job s1) evs resolved)
     ∧ Get w job (ins1 ++ [Recv event])
       = Some {| s_world := s_world s1; s_job := s_job s1;
                 s_filters := Some resolved; s_listener := s_listener s1;
                 s_outcome := Blocked |})
  ∧ (∀ ins1 s1 f1 event b err,
       Get w job ins1 = Some s1 → s_outcome s1 = Blocked → s_filters s1 = Some f1 →
       let resolved := resolve_containers (Eng (s_job s1)) f1 in
       suppressed event resolved = false → json_Marshal event = Some b →
       Write_err (Stdout (s_job s1)) (calls (Stdout (s_job s1))) b = Some err →
       ∃ job2,
         writeEvent (s_job s1) event f1 = (job2, resolved, Some err)
         ∧ calls (Stdout job2) = calls (Stdout (s_job s1)) ++ [b]
         ∧ (∀ evs, write_each (s_job s1) (event :: evs) f1 = (job2, resolved, Some err))
         ∧ (∀ rest, ∃ s2,
              Get w job (ins1 ++ Recv event :: rest) = Some s2
              ∧ ended_with w s2 job2 err))
  ∧ (∀ ins eventFilters job2 f2 err,
       filters_FromParam (Getenv job "filters") = inr eventFilters →
       GetenvInt64 job "since" ≠ 0%Z →
       writeCurrent (bus w) (set_Stdout job (Write (Stdout job) "").1)
         (GetenvInt64 job "since") (GetenvInt64 job "until") eventFilters
       = (bus w, job2, f2, Some err) →
       ∃ s, Get w job ins = Some s ∧ ended_with w s job2 err).
Proof.
  intros Hreach. pose proof (reachable_inv _ Hreach) as Hinv.
  split; [|split].
  - intros ins1 s1 f1 event Hget Hblocked Hf1 Hm resolved.
    by apply Get_drops_unserialisable.
  - intros ins1 s1 f1 event b err Hget Hblocked Hf1 resolved Hpass Hb Hw.
    destruct (Get_stops_on_write_error w job ins1 s1 f1 event b err
                Hinv Hget Hblocked Hf1 Hpass Hb Hw)
      as (job2 & Hwe & Hcalls & Heach & Hrest).
    exists job2. split; [done|]. split; [done|]. split; [done|].
    intros rest. eexists. split; [apply Hrest|].
    by apply returned_session_ended.
  - intros ins f job2 f2 err Hparse Hsince Hreplay.
    eexists. split; [|by apply (returned_session_ended w job2 f2 err)].
    apply (Get_replay_failure w job ins f); [done|done|].
    unfold Get_replay. cbn [set_Stdout GetenvInt64].
    apply Z.eqb_neq in Hsince. rewrite Hsince. simpl.
    unfold writeCurrent in Hreplay. cbn [set_Stdout GetenvInt64] in Hreplay.
    destruct (writeCurrent_loop _ _ _ _ _) as [[j f'] e].
    by injection Hreplay as -> -> ->.
Qed.

(** *** More on [writeEvent] *)

Lemma resolve_containers_lookup_other eng a k :
  k ≠ "container" → resolve_containers eng a !! k = a !! k.
Proof.
  intros Hk. unfold resolve_containers.
  destruct (a !! "container") as [cell|] eqn:Hc; [|done].
  by rewrite lookup_insert_ne.
Qed.

Lemma resolve_containers_dom eng a : dom (resolve_containers eng a) = dom a.
Proof.
  unfold resolve_containers.
  destruct (a !! "container") as [cell|] eqn:Hc; [|done].
  by apply dom_insert_lookup_L.
Qed.

Lemma writeEvent_Eng job event eventFilters :
  Eng (writeEvent job event eventFilters).1.1 = Eng job.
Proof.
  unfold writeEvent. destruct (suppressed _ _); [done|].
  by destruct (json_Marshal event).
Qed.

Lemma writeEvent_filters job event eventFilters :
  (writeEvent job event eventFilters).1.2 = resolve_containers (Eng job) eventFilters.
Proof.
  unfold writeEvent. destruct (suppressed _ _); [done|].
  by destruct (json_Marshal event).
Qed.

(** X15. One call of [writeEvent] makes at most one call of [Write], with the
    encoding of the record, and returns that call's verdict; it returns an
    error only if it wrote.  Of the filters it changes nothing but the values
    under ["container"], whose number stays the same; the job's name,
    arguments and engine are as before. *)
Theorem writeEvent_frame (job : Job) (event : JSONMessage) (eventFilters : Args) :
  ∃ job' eventFilters' err,
    writeEvent job event eventFilters = (job', eventFilters', err)
    ∧ ((calls (Stdout job') = calls (Stdout job) ∧ err = None)
       ∨ ∃ b, json_Marshal event = Some b
              ∧ calls (Stdout job') = calls (Stdout job) ++ [b]
              ∧ err = Write_err (Stdout job) (calls (Stdout job)) b)
    ∧ Write_err (Stdout job') = Write_err (Stdout job)
    ∧ Name job' = Name job ∧ JobArgs job' = JobArgs job ∧ Eng job' = Eng job
    ∧ dom eventFilters' = dom eventFilters
    ∧ (∀ k, k ≠ "container" → eventFilters' !! k = eventFilters !! k)
    ∧ length (args_get eventFilters' "container")
      = length (args_get eventFilters "container").
Proof.
  assert (Hframe : dom (resolve_containers (Eng job) eventFilters) = dom eventFilters
    ∧ (∀ k, k ≠ "container" →
            resolve_containers (Eng job) eventFilters !! k = eventFilters !! k)
    ∧ length (args_get (resolve_containers (Eng job) eventFilters) "container")
      = length (args_get eventFilters "container")).
  { split; [apply resolve_containers_dom|]. split.
    - intros k. apply resolve_containers_lookup_other.
    - by rewrite resolve_containers_get, length_fmap. }
  unfold writeEvent. destruct (suppressed _ _).
  { eexists _, _, _. split; [done|]. split; [by left|]. done. }
  destruct (json_Marshal event) as [b|] eqn:Hb.
  - eexists _, _, _. split; [done|]. split; [right; by exists b|]. done.
  - eexists _, _, _. split; [done|]. split; [by left|]. done.
Qed.

Lemma write_each_resolutions job evs eventFilters job' eventFilters' :
  write_each job evs eventFilters = (job', eventFilters', None) →
  eventFilters' = Nat.iter (length evs) (resolve_containers (Eng job)) eventFilters
  ∧ Eng job' = Eng job.
Proof.
  revert job eventFilters. induction evs as [|event evs IH]; intros job f; simpl.
  - by intros [= <- <-].
  - pose proof (writeEvent_Eng job event f) as HEng.
    pose proof (writeEvent_filters job event f) as Hf.
    destruct (writeEvent job event f) as [[job1 f1] [err|]]; [done|].
    simpl in HEng, Hf. intros Hrest. apply IH in Hrest as [-> ->].
    rewrite HEng, Hf. split; [|done].
    clear. induction (length evs) as [|n IHn]; simpl; [done|]. by rewrite IHn.
Qed.

(** X16. The container filter is resolved anew for every record that is
    handed to [writeEvent]: a replay that returns no error leaves the
    session's filters as the resolution loop makes them when it is run once
    for each record of the window. *)
Theorem writeCurrent_resolutions (e : Events) (job job' : Job) (since until : Z)
    (eventFilters eventFilters' : Args) :
  writeCurrent e job since until eventFilters = (e, job', eventFilters', None) →
  eventFilters'
  = Nat.iter (length (List.filter (in_window since until) (events e)))
             (resolve_containers (Eng job)) eventFilters.
Proof.
  unfold writeCurrent. rewrite writeCurrent_loop_window.
  destruct (write_each _ _ _) as [[j f] err] eqn:Hrun.
  intros [= -> -> ->]. by apply write_each_resolutions in Hrun as [-> _].
Qed.

(** X17. When the identifiers the lookup returns for the filter values
    resolve to themselves, resolving a second time changes nothing: from the
    first record on the session's filters stay the same. *)
Theorem resolve_containers_stable (eng : Engine) (eventFilters : Args) :
  (∀ name, name ∈ args_get eventFilters "container" →
           GetContainerId eng (GetContainerId eng name) = GetContainerId eng name) →
  resolve_containers eng (resolve_containers eng eventFilters)
  = resolve_containers eng eventFilters.
Proof.
  intros Hidem. unfold args_get in Hidem.
  destruct (eventFilters !! "container") as [cell|] eqn:Hc; simpl in Hidem.
  - assert (Hr : resolve_containers eng eventFilters
                 = <["container" := GetContainerId eng <$> cell]> eventFilters).
    { unfold resolve_containers. by rewrite Hc, resolve_from_fmap. }
    rewrite Hr. unfold resolve_containers.
    rewrite lookup_insert_eq, insert_insert_eq, resolve_from_fmap.
    f_equal. rewrite <- list_fmap_compose.
    apply list_fmap_ext. intros i name Hi. simpl.
    apply Hidem. exact (list_elem_of_lookup_2 _ _ _ Hi).
  - assert (Hr : resolve_containers eng eventFilters = eventFilters).
    { unfold resolve_containers. by rewrite Hc. }
    by rewrite !Hr.
Qed.

(** *** More on [Get] *)

Lemma made_unsubscribe w :
  bus_inv w →
  unsubscribe (make_subscribe w).1 (next_chan w)
  = Some ({| bus := bus w; closed := {[next_chan w]} ∪ closed w;
             next_chan := S (next_chan w); inbox := inbox w |}, true).
Proof.
  intros (_ & Hopen & Hcl).
  rewrite (unsubscribe_middle (make_subscribe w).1 (next_chan w) (subscribers (bus w)) []);
    [|done| |].
  - simpl. rewrite app_nil_r. by destruct (bus w).
  - intros H. apply Hopen in H. lia.
  - simpl. intros H. apply Hcl in H. lia.
Qed.

Lemma returned_session_reachable w job eventFilters err :
  reachable w → reachable (s_world (returned_session w job eventFilters err)).
Proof.
  intros Hreach. simpl.
  eapply (reach_unsubscribe (make_subscribe w).1 (next_chan w)).
  - by apply reach_subscribe.
  - apply made_unsubscribe. by apply reachable_inv.
Qed.

(** X18. With [since = 0] nothing is replayed, whatever the history holds:
    once the filters have parsed, [Get] registers its listener, makes its
    one empty write, and waits; the filters are as parsed. *)
Theorem Get_no_replay (w : World) (job : Job) (eventFilters : Args) :
  reachable w →
  filters_FromParam (Getenv job "filters") = inr eventFilters →
  GetenvInt64 job "since" = 0%Z →
  Get w job []
  = Some {| s_world := (make_subscribe w).1;
            s_job := set_Stdout job (Write (Stdout job) "").1;
            s_filters := Some eventFilters;
            s_listener := Some (next_chan w); s_outcome := Blocked |}
  ∧ calls (Stdout (set_Stdout job (Write (Stdout job) "").1))
    = calls (Stdout job) ++ [""].
Proof.
  intros Hreach Hparse Hsince. split; [|done].
  rewrite (Get_parsed _ _ _ _ (reachable_inv _ Hreach) Hparse).
  unfold Get_replay. cbn [set_Stdout GetenvInt64]. by rewrite Hsince.
Qed.

(** X19. A waiting session ends without error and without another write when
    its channel is found closed, and, when [until] is not 0, when the timer
    fires: whatever was to arrive afterwards is not looked at, the listener
    is out of the registry and its channel is closed. *)
Theorem Get_ends_quietly (w : World) (job : Job) (ins1 rest : list incoming)
    (s1 : session) (f1 : Args) :
  reachable w →
  Get w job ins1 = Some s1 → s_outcome s1 = Blocked → s_filters s1 = Some f1 →
  Get w job (ins1 ++ ChanClosed :: rest)
  = Some (returned_session w (s_job s1) f1 None)
  ∧ (GetenvInt64 job "until" ≠ 0%Z →
     Get w job (ins1 ++ TimerFired :: rest)
     = Some (returned_session w (s_job s1) f1 None))
  ∧ subscribers (bus (s_world (returned_session w (s_job s1) f1 None)))
    = subscribers (bus w)
  ∧ next_chan w ∈ closed (s_world (returned_session w (s_job s1) f1 None)).
Proof.
  intros Hreach Hget Hblocked Hf1. pose proof (reachable_inv _ Hreach) as Hinv.
  split; [|split; [|split; [done|]]].
  - destruct (Get_resume w job ins1 (ChanClosed :: rest) s1 Hinv Hget Hblocked)
      as (f & Hf & ->).
    rewrite Hf1 in Hf. by injection Hf as <-.
  - intros Huntil.
    destruct (Get_resume w job ins1 (TimerFired :: rest) s1 Hinv Hget Hblocked)
      as (f & Hf & ->).
    rewrite Hf1 in Hf. injection Hf as <-. simpl.
    apply Z.eqb_neq in Huntil. by rewrite Huntil.
  - simpl. apply elem_of_union_l. by apply elem_of_singleton.
Qed.

(** X20. Past the parser, [Get] never panics on a world the package's calls
    lead to, and it leaves a world of that kind.  While the session waits,
    its listener, a channel nobody held before, is the last entry of the
    registry and open; once [Get] has returned, by any way out, the
    registry is what it was before the call and the channel is closed.  The
    history is never touched. *)
Theorem Get_registry (w : World) (job : Job) (ins : list incoming) (eventFilters : Args) :
  reachable w →
  filters_FromParam (Getenv job "filters") = inr eventFilters →
  ∃ s, Get w job ins = Some s
    ∧ s_listener s = Some (next_chan w)
    ∧ reachable (s_world s)
    ∧ events (bus (s_world s)) = events (bus w)
    ∧ match s_outcome s with
      | Blocked =>
          subscribers (bus (s_world s)) = subscribers (bus w) ++ [next_chan w]
          ∧ subscribersCount (bus (s_world s)) = S (subscribersCount (bus w))
          ∧ next_chan w ∉ closed (s_world s)
      | Returned _ =>
          subscribers (bus (s_world s)) = subscribers (bus w)
          ∧ subscribersCount (bus (s_world s)) = subscribersCount (bus w)
          ∧ next_chan w ∈ closed (s_world s)
      end.
Proof.
  intros Hreach Hparse. pose proof (reachable_inv _ Hreach) as Hinv.
  rewrite (Get_parsed _ _ _ _ Hinv Hparse).
  assert (Hret : ∀ j f e,
    let s := returned_session w j f e in
    s_listener s = Some (next_chan w) ∧ reachable (s_world s)
    ∧ events (bus (s_world s)) = events (bus w)
    ∧ subscribers (bus (s_world s)) = subscribers (bus w)
    ∧ subscribersCount (bus (s_world s)) = subscribersCount (bus w)
    ∧ next_chan w ∈ closed (s_world s)).
  { intros j f e s. split; [done|]. split; [by apply returned_session_reachable|].
    split; [done|]. split; [done|]. split; [done|].
    simpl. apply elem_of_union_l. by apply elem_of_singleton. }
  destruct (Get_replay _ _ _) as [[job2 f2] [err|]].
  { eexists. split; [done|]. apply (Hret job2 f2 (Some err)). }
  destruct (Get_live _ job2 f2 ins) as [[job3 f3] [err|]].
  { eexists. split; [done|]. apply (Hret job3 f3 err). }
  eexists. split; [done|]. cbn [s_listener s_world s_outcome].
  split; [done|]. split; [by apply reach_subscribe|]. split; [done|].
  split; [done|]. split.
  - unfold subscribersCount. simpl. rewrite length_app. simpl. lia.
  - simpl. destruct Hinv as (_ & _ & Hcl). intros H. apply Hcl in H. lia.
Qed.

(** The records a session receives before it ends: those before the first
    closed channel or timer. *)
Fixpoint heard (ins : list incoming) : list JSONMessage :=
  match ins with
  | Recv event :: rest => event :: heard rest
  | _ => []
  end.

Lemma Get_live_unfiltered armed job ins :
  (∀ h b, Write_err (Stdout job) h b = None) →
  (armed = false → TimerFired ∉ ins) →
  ∃ job' out, Get_live armed job ∅ ins = (job', ∅, out)
    ∧ calls (Stdout job') = calls (Stdout job) ++ omap json_Marshal (heard ins).
Proof.
  revert job. induction ins as [|[event| |] ins IH]; intros job Hok Htimer; simpl.
  - eexists _, _. split; [done|]. by rewrite app_nil_r.
  - rewrite writeEvent_passed
      by (rewrite resolve_containers_empty; apply suppressed_empty).
    rewrite resolve_containers_empty.
    assert (Htimer' : armed = false → TimerFired ∉ ins).
    { intros Ha Hin. apply (Htimer Ha). by right. }
    destruct (json_Marshal event) as [b|] eqn:Hb; simpl.
    + rewrite Hok.
      destruct (IH (set_Stdout job {| calls := calls (Stdout job) ++ [b];
                                      Write_err := Write_err (Stdout job) |}))
        as (job' & out & Hrun & Hcalls); [done|done|].
      exists job', out. split; [done|]. rewrite Hcalls. simpl. by rewrite <- app_assoc.
    + by apply IH.
  - eexists _, _. split; [done|]. by rewrite app_nil_r.
  - destruct armed.
    + eexists _, _. split; [done|]. by rewrite app_nil_r.
    + exfalso. apply Htimer; [done|]. left.
Qed.

(** X21. With no filter and a writer in working order, what a session has
    written is: the empty chunk, then the encodings of the records of the
    replay window (none when [since = 0]), then the encodings of the records
    it received before it ended, each in order; records that do not
    serialise are left out. *)
Theorem Get_output (w : World) (job : Job) (ins : list incoming) :
  reachable w →
  filters_FromParam (Getenv job "filters") = inr ∅ →
  (∀ h b, Write_err (Stdout job) h b = None) →
  (GetenvInt64 job "until" = 0%Z → TimerFired ∉ ins) →
  ∃ s, Get w job ins = Some s
    ∧ calls (Stdout (s_job s))
      = calls (Stdout job) ++ [""]
        ++ omap json_Marshal
             (if (GetenvInt64 job "since" =? 0)%Z then []
              else List.filter (in_window (GetenvInt64 job "since")
                                          (GetenvInt64 job "until"))
                               (events (bus w)))
        ++ omap json_Marshal (heard ins).
Proof.
  intros Hreach Hparse Hok Htimer.
  rewrite (Get_parsed _ _ _ _ (reachable_inv _ Hreach) Hparse).
  set (job1 := set_Stdout job (Write (Stdout job) "").1).
  assert (Hok1 : ∀ h b, Write_err (Stdout job1) h b = None) by done.
  assert (∃ job2, Get_replay (bus w) job1 ∅ = (job2, ∅, None)
            ∧ calls (Stdout job2)
              = calls (Stdout job1)
                ++ omap json_Marshal
                     (if (GetenvInt64 job "since" =? 0)%Z then []
                      else List.filter (in_window (GetenvInt64 job "since")
                                                  (GetenvInt64 job "until"))
                                       (events (bus w)))
            ∧ Write_err (Stdout job2) = Write_err (Stdout job1))
    as (job2 & -> & Hcalls2 & Herr2).
  { unfold Get_replay. cbn [job1 set_Stdout GetenvInt64]. fold job1.
    destruct (GetenvInt64 job "since" =? 0)%Z; simpl.
    - exists job1. by rewrite app_nil_r.
    - rewrite writeCurrent_loop_window.
      destruct (write_each_unfiltered job1
                  (List.filter (in_window (GetenvInt64 job "since")
                                          (GetenvInt64 job "until"))
                               (events (bus w))) Hok1)
        as (job2 & Hrun & Hcalls & Herr).
      by exists job2. }
  destruct (Get_live_unfiltered (negb (GetenvInt64 job "until" =? 0)%Z) job2 ins)
    as (job3 & out & -> & Hcalls3).
  { intros h b. by rewrite Herr2. }
  { intros Harmed. apply Htimer. apply negb_false_iff in Harmed.
    by apply Z.eqb_eq. }
  assert (Hfinal : calls (Stdout job3)
    = calls (Stdout job) ++ [""]
      ++ omap json_Marshal
           (if (GetenvInt64 job "since" =? 0)%Z then []
            else List.filter (in_window (GetenvInt64 job "since")
                                        (GetenvInt64 job "until"))
                             (events (bus w)))
      ++ omap json_Marshal (heard ins)).
  { rewrite Hcalls3, Hcalls2. simpl. by rewrite <- !app_assoc. }
  destruct out as [err|]; eexists; (split; [done|exact Hfinal]).
Qed.

Lemma writeEvent_calls_prefix job event eventFilters :
  calls (Stdout job) `prefix_of` calls (Stdout (writeEvent job event eventFilters).1.1).
Proof.
  unfold writeEvent. destruct (suppressed _ _); [done|].
  destruct (json_Marshal event); [|done]. simpl. by apply prefix_app_r.
Qed.

Lemma writeCurrent_loop_calls_prefix job evs since until eventFilters :
  calls (Stdout job)
  `prefix_of` calls (Stdout (writeCurrent_loop job evs since until eventFilters).1.1).
Proof.
  revert job eventFilters. induction evs as [|event evs IH]; intros job f; simpl; [done|].
  destruct (in_window since until event); [|apply IH].
  pose proof (writeEvent_calls_prefix job event f) as Hp.
  destruct (writeEvent job event f) as [[job1 f1] [err|]]; [done|].
  etrans; [exact Hp|apply IH].
Qed.

Lemma Get_live_calls_prefix armed job eventFilters ins :
  calls (Stdout job) `prefix_of` calls (Stdout (Get_live armed job eventFilters ins).1.1).
Proof.
  revert job eventFilters.
  induction ins as [|[event| |] ins IH]; intros job f; simpl; [done| |done|].
  - pose proof (writeEvent_calls_prefix job event f) as Hp.
    destruct (writeEvent job event f) as [[job1 f1] [err|]]; [done|].
    etrans; [exact Hp|apply IH].
  - destruct armed; [done|apply IH].
Qed.

(** X22. The output of a session only grows, and a session that has returned
    is not moved by what arrives later: what [Get] has written given some
    observations begins with what the job's output held before, and is the
    beginning of what it has written given more; if it had returned, it is
    exactly the same session. *)
Theorem Get_output_grows (w : World) (job : Job) (ins1 ins2 : list incoming)
    (s1 : session) :
  reachable w → Get w job ins1 = Some s1 →
  calls (Stdout job) `prefix_of` calls (Stdout (s_job s1))
  ∧ ∃ s2, Get w job (ins1 ++ ins2) = Some s2
      ∧ calls (Stdout (s_job s1)) `prefix_of` calls (Stdout (s_job s2))
      ∧ (∀ err, s_outcome s1 = Returned err → s2 = s1).
Proof.
  intros Hreach Hget. pose proof (reachable_inv _ Hreach) as Hinv.
  destruct (filters_FromParam (Getenv job "filters")) as [err|f] eqn:Hparse.
  { unfold Get in *. rewrite Hparse in *. injection Hget as <-. simpl.
    split; [done|]. eexists. split; [done|]. done. }
  pose proof Hget as Hget'. rewrite (Get_parsed _ _ _ _ Hinv Hparse) in Hget'.
  assert (Hpre : calls (Stdout job) `prefix_of` calls (Stdout (s_job s1))).
  { pose proof (writeCurrent_loop_calls_prefix
                  (set_Stdout job (Write (Stdout job) "").1) (events (bus w))
                  (GetenvInt64 job "since") (GetenvInt64 job "until") f) as Hreplay.
    assert (Hrep : calls (Stdout job)
              `prefix_of` calls (Stdout (Get_replay (bus w)
                            (set_Stdout job (Write (Stdout job) "").1) f).1.1)).
    { unfold Get_replay. cbn [set_Stdout GetenvInt64].
      destruct (negb (GetenvInt64 job "since" =? 0)%Z).
      - etrans; [|exact Hreplay]. simpl. by apply prefix_app_r.
      - simpl. by apply prefix_app_r. }
    destruct (Get_replay _ _ _) as [[job2 f2] [e|]]; simpl in Hrep.
    { by injection Hget' as <-. }
    pose proof (Get_live_calls_prefix (negb (GetenvInt64 job "until" =? 0)%Z)
                  job2 f2 ins1) as Hlive.
    destruct (Get_live _ job2 f2 ins1) as [[job3 f3] [e|]]; simpl in Hlive;
      injection Hget' as <-; simpl; by etrans. }
  split; [done|].
  destruct (s_outcome s1) as [err|] eqn:Hout.
  - exists s1. split; [|done].
    rewrite (Get_parsed _ _ _ _ Hinv Hparse).
    destruct (Get_replay _ _ _) as [[job2 f2] [e|]]; [done|].
    rewrite Get_live_app.
    destruct (Get_live _ job2 f2 ins1) as [[job3 f3] [e|]]; [done|].
    injection Hget' as <-. done.
  - destruct (Get_resume w job ins1 ins2 s1 Hinv Hget Hout) as (f1 & Hf1 & ->).
    pose proof (Get_live_calls_prefix (negb (GetenvInt64 job "until" =? 0)%Z)
                  (s_job s1) f1 ins2) as Hlive.
    destruct (Get_live _ (s_job s1) f1 ins2) as [[job2 f2] [e|]]; simpl in Hlive;
      (eexists; split; [done|]; split; [done|]; done).
Qed.

(** X23. What [log] has recorded a replay finds: after a call of [log] at
    time [now], a replay whose window holds [now] hands the new record to
    [writeEvent] last, and with no filter and a writer in working order the
    record's encoding is the last chunk written. *)
Theorem publish_then_replay (w : World) (job : Job) (since until : Z)
    (action id from : string) (now : Z) (ready : listener → option Z) (b : string) :
  reachable w →
  (since ≤ now)%Z → (now ≤ until ∨ until = 0)%Z →
  json_Marshal {| Status := action; ID := id; From_ := from; Time_ := now |} = Some b →
  (∀ h c, Write_err (Stdout job) h c = None) →
  ∃ w' tr t job',
    log w action id from now ready = Some (w', tr, t)
    ∧ last (List.filter (in_window since until) (events (bus w')))
      = Some {| Status := action; ID := id; From_ := from; Time_ := now |}
    ∧ writeCurrent (bus w') job since until ∅ = (bus w', job', ∅, None)
    ∧ last (calls (Stdout job')) = Some b.
Proof.
  intros Hreach Hsince Huntil Hb Hok.
  destruct (log_last w action id from now ready (reachable_log_ready _ Hreach))
    as (w' & tr & t & Hlog & Hev & _).
  set (jm := {| Status := action; ID := id; From_ := from; Time_ := now |}) in *.
  assert (Hwin : List.filter (in_window since until) (events (bus w'))
                 = List.filter (in_window since until)
                     (drop (length (events (bus w)) + 1 - eventsLimit) (events (bus w)))
                   ++ [jm]).
  { rewrite Hev, drop_app_le by (unfold eventsLimit; lia).
    rewrite List.filter_app. simpl.
    assert (in_window since until jm = true) as -> by by apply in_window_spec.
    done. }
  destruct (write_each_unfiltered job
              (List.filter (in_window since until) (events (bus w'))) Hok)
    as (job' & Hrun & Hcalls & _).
  exists w', tr, t, job'. split; [done|]. split; [|split].
  - rewrite Hwin. apply last_snoc.
  - unfold writeCurrent. by rewrite writeCurrent_loop_window, Hrun.
  - rewrite Hcalls, Hwin, omap_app. simpl. rewrite Hb, app_assoc. apply last_snoc.
Qed.

End Handlers.

(** ** Worked instances *)

(** Stand-ins for the collaborators, to run the handlers on concrete input:
    an encoder that rejects a record without status, a decoder that takes the
    whole buffer for the [ID], a parser that knows two filter strings, an
    engine that knows one container, and two writers. *)
Definition sample_Marshal (jm : JSONMessage) : option string :=
  if decide (Status jm = "") then None
  else Some (Status jm +:+ " " +:+ ID jm +:+ " " +:+ From_ jm).

Definition sample_decode_ID (buf : string) : string := buf.

Definition sample_FromParam (p : string) : error + Args :=
  if decide (p = "") then inr ∅
  else if decide (p = "event=stop") then inr {["event" := ["stop"]]}
  else inl "invalid filter".

Definition sample_engine : Engine :=
  {| container_inspect := λ name, if decide (name = "web") then Some "4f2a" else None |}.

Definition sound_output : Output :=
  {| calls := []; Write_err := λ _ _, None |}.

Definition broken_output : Output :=
  {| calls := [];
     Write_err := λ _ b, if decide (b = "") then None else Some "broken pipe" |}.

Definition sample_job (args : list string) (filters : string) (since until : Z)
    (out : Output) : Job :=
  {| Name := "events"; JobArgs := args;
     Getenv := λ k, if decide (k = "filters") then filters else "";
     GetenvInt64 := λ k, if decide (k = "since") then since
                         else if decide (k = "until") then until else 0%Z;
     Stdout := out; Eng := sample_engine |}.

Definition sample_event (status id from : string) (t : Z) : JSONMessage :=
  {| Status := status; ID := id; From_ := from; Time_ := t |}.

Definition sample_publish (action : string) (t : Z) : publish :=
  {| p_action := action; p_id := "c1"; p_from := "img:latest"; p_now := t;
     p_ready := λ _, None |}.

(** A bus with two sessions registered. *)
Definition two_subscribers : World :=
  (make_subscribe (make_subscribe fresh_world).1).1.

Lemma two_subscribers_reachable : reachable two_subscribers.
Proof. apply reach_subscribe, reach_subscribe, reach_fresh. Qed.

(** Seventy publishes leave the records 6 to 69. *)
Example history_of_seventy :
  (λ w, Time_ <$> events (bus w))
    <$> publish_all fresh_world
          ((λ n, sample_publish "start" (Z.of_nat n)) <$> seq 0 70)
  = Some (Z.of_nat <$> seq 6 64).
Proof. vm_compute. reflexivity. Qed.

Example Split_image : Split "localhost:5000/repo:tag" colon = ["localhost"; "5000/repo"; "tag"].
Proof. reflexivity. Qed.

Lemma history_is_last_eventsLimit_witness :
  ∃ w, publish_all fresh_world [sample_publish "create" 1; sample_publish "start" 2] = Some w
     ∧ events (bus w) = [sample_event "create" "c1" "img:latest" 1;
                         sample_event "start" "c1" "img:latest" 2].
Proof.
  destruct (history_is_last_eventsLimit [sample_publish "create" 1; sample_publish "start" 2])
    as (w & Hrun & Hle & _).
  exists w. split; [exact Hrun|]. apply Hle. unfold eventsLimit. simpl. lia.
Defined.

Lemma filter_match_rule_witness :
  ["abc"] ≠ []
  ∧ suppressed (sample_event "start" "abc:def" "img" 1) {["container" := ["abc"]]} = false.
Proof.
  split; [discriminate|].
  apply (filter_match_rule BySubject (sample_event "start" "abc:def" "img" 1) ["abc"]).
  - discriminate.
  - exists "abc". split; [left|]. right. exists "def". split; reflexivity.
Defined.

(** C3 as it is worded fails on the status dimension, where a value that is
    only the part before the [':'] lets the record through, and on the source
    dimension, where a value that itself holds a [':'] does not match a source
    that starts with it and the separator. *)
Lemma prefix_rule_counterexample :
  (suppressed (sample_event "a:b" "c1" "img" 1) {[dim_key ByStatus := ["a"]]} = false
   ∧ ¬ ∃ v, v ∈ ["a"] ∧ spec_matches ByStatus "a:b" v)
  ∧ (suppressed (sample_event "start" "c1" "a:b:c" 1) {[dim_key BySource := ["a:b"]]} = true
     ∧ ∃ v, v ∈ ["a:b"] ∧ spec_matches BySource "a:b:c" v).
Proof.
  split; split.
  - reflexivity.
  - intros (v & Hv & Hm). apply list_elem_of_singleton in Hv as ->.
    destruct Hm as [Hm|[Hm _]]; discriminate.
  - reflexivity.
  - exists "a:b". split; [left|]. right. split; [reflexivity|]. by exists "c".
Qed.

(** A bus holding three records, at times 10, 20 and 30. *)
Definition three_records : Events :=
  {| events := [sample_event "create" "c1" "img" 10; sample_event "start" "c1" "img" 20;
                sample_event "die" "c1" "img" 30];
     events_cap := eventsLimit; subscribers := [] |}.

Lemma replay_window_witness :
  (∃ job', writeCurrent sample_Marshal sample_decode_ID three_records
             (sample_job [] "" 15 25 sound_output) 15 25 ∅
           = (three_records, job', ∅, None)
           ∧ calls (Stdout job') = ["start c1 img"])
  ∧ (5 ≠ 0 ∧ 5 < 15)%Z
  ∧ writeCurrent sample_Marshal sample_decode_ID three_records
      (sample_job [] "" 15 5 sound_output) 15 5 {["event" := ["start"]]}
    = (three_records, sample_job [] "" 15 5 sound_output, {["event" := ["start"]]}, None).
Proof.
  split; [|split; [lia|]].
  - destruct (replay_window sample_Marshal sample_decode_ID three_records
                (sample_job [] "" 15 25 sound_output) 15 25 ∅)
      as (_ & _ & _ & Hemit & _).
    destruct (Hemit eq_refl (λ _ _, eq_refl)) as (job' & Hrun & Hcalls).
    exists job'. split; [exact Hrun|exact Hcalls].
  - destruct (replay_window sample_Marshal sample_decode_ID three_records
                (sample_job [] "" 15 5 sound_output) 15 5 {["event" := ["start"]]})
      as (_ & _ & _ & _ & Hempty).
    apply Hempty; lia.
Defined.

(** The filters [event=stop] and [image=repo] together. *)
Definition stop_from_repo : Args := <["event" := ["stop"]]> {["image" := ["repo"]]}.

Lemma filter_is_conjunction_witness :
  writeEvent sample_Marshal sample_decode_ID (sample_job [] "" 0 0 sound_output)
    (sample_event "start" "c1" "repo:tag" 1) stop_from_repo
  = (sample_job [] "" 0 0 sound_output, stop_from_repo, None)
  ∧ calls (Stdout (writeEvent sample_Marshal sample_decode_ID
                     (sample_job [] "" 0 0 sound_output)
                     (sample_event "stop" "c1" "repo:tag" 1)
                     stop_from_repo).1.1)
    = ["stop c1 repo:tag"].
Proof.
  split.
  - destruct (filter_is_conjunction sample_Marshal sample_decode_ID
                (sample_job [] "" 0 0 sound_output)
                (sample_event "start" "c1" "repo:tag" 1)
                stop_from_repo) as (Hfail & _).
    apply Hfail. left. reflexivity.
  - destruct (filter_is_conjunction sample_Marshal sample_decode_ID
                (sample_job [] "" 0 0 sound_output)
                (sample_event "stop" "c1" "repo:tag" 1)
                stop_from_repo) as (_ & Hpass & _).
    destruct (Hpass (conj (λ H, Bool.diff_false_true H)
                          (conj (λ H, Bool.diff_false_true H)
                                (λ H, Bool.diff_false_true H)))
                    "stop c1 repo:tag" eq_refl) as [_ Hcalls].
    exact Hcalls.
Defined.

Lemma unsubscribe_once_witness :
  reachable two_subscribers ∧ 1 ∈ subscribers (bus two_subscribers)
  ∧ (∃ w1, unsubscribe two_subscribers 1 = Some (w1, true)
           ∧ unsubscribe w1 1 = Some (w1, false)
           ∧ S (subscribersCount (bus w1)) = 2)
  ∧ (7 ∉ subscribers (bus two_subscribers))
  ∧ unsubscribe two_subscribers 7 = Some (two_subscribers, false).
Proof.
  assert (Hin : 1 ∈ subscribers (bus two_subscribers)) by (right; left).
  assert (Hout : 7 ∉ subscribers (bus two_subscribers)).
  { intros H. apply elem_of_cons in H as [H|H]; [discriminate|].
    apply list_elem_of_singleton in H. discriminate. }
  split; [exact two_subscribers_reachable|]. split; [exact Hin|].
  destruct (unsubscribe_once two_subscribers 1 two_subscribers_reachable) as [Hreg _].
  destruct (unsubscribe_once two_subscribers 7 two_subscribers_reachable) as [_ Hmiss].
  split; [|split; [exact Hout|exact (Hmiss Hout)]].
  destruct (Hreg Hin) as (w1 & H1 & _ & _ & _ & Hcount & _ & _ & H2).
  exists w1. split; [exact H1|]. split; [exact H2|exact Hcount].
Defined.


Lemma Log_arity_witness :
  Log fresh_world (sample_job ["start"; "c1"] "" 0 0 sound_output)
  = (fresh_world, Some "usage: events ACTION ID FROM", None)
  ∧ Log fresh_world (sample_job ["start"; "c1"; "img"] "" 0 0 sound_output)
    = (fresh_world, None, Some (GoLog "start" "c1" "img")).
Proof.
  split.
  - destruct (Log_arity fresh_world (sample_job ["start"; "c1"] "" 0 0 sound_output))
      as (_ & _ & Herr & _).
    apply Herr. discriminate.
  - destruct (Log_arity fresh_world (sample_job ["start"; "c1"; "img"] "" 0 0 sound_output))
      as (_ & _ & _ & Hok).
    apply (Hok "start" "c1" "img" eq_refl).
Defined.

Lemma Get_malformed_filters_witness :
  sample_FromParam "{bad" = inl "invalid filter"
  ∧ ∃ s, Get sample_Marshal sample_decode_ID sample_FromParam two_subscribers
             (sample_job [] "{bad" 1 0 sound_output) [Recv (sample_event "start" "c1" "img" 5)]
         = Some s
       ∧ s_outcome s = Returned (Some "invalid filter")
       ∧ subscribersCount (bus (s_world s)) = 2
       ∧ calls (Stdout (s_job s)) = [].
Proof.
  split; [reflexivity|].
  destruct (Get_malformed_filters sample_Marshal sample_decode_ID sample_FromParam
              two_subscribers (sample_job [] "{bad" 1 0 sound_output)
              [Recv (sample_event "start" "c1" "img" 5)] "invalid filter" eq_refl)
    as (s & Hget & Hout & _ & _ & Hcount & _ & Hcalls).
  exists s. split; [exact Hget|]. split; [exact Hout|]. split; [exact Hcount|exact Hcalls].
Defined.

(** A session on a new bus, no replay, no deadline, no filters, behind a
    writer that refuses every chunk but the empty one: after [Get]'s first,
    empty write it waits in the [select]. *)
Definition waiting_job : Job := sample_job [] "" 0 0 broken_output.

Definition waiting_session : session :=
  {| s_world := (make_subscribe fresh_world).1;
     s_job := set_Stdout waiting_job (Write (Stdout waiting_job) "").1;
     s_filters := Some ∅; s_listener := Some 0; s_outcome := Blocked |}.

Lemma waiting_session_reached :
  Get sample_Marshal sample_decode_ID sample_FromParam fresh_world waiting_job []
  = Some waiting_session.
Proof. reflexivity. Qed.

(** A bus holding one record, and a session on it that asks for a replay
    behind the writer that refuses every chunk but the empty one. *)
Definition one_record : World :=
  {| bus := {| events := [sample_event "start" "c1" "img" 5];
               events_cap := eventsLimit; subscribers := [] |};
     closed := ∅; next_chan := 0; inbox := [] |}.

Lemma one_record_reachable : reachable one_record.
Proof.
  apply (reach_log fresh_world "start" "c1" "img" 5 (λ _, None) one_record [] 0%Z).
  - apply reach_fresh.
  - reflexivity.
Qed.

Definition replaying_job : Job := sample_job [] "" 1 0 broken_output.

Lemma emission_failures_witness :
  (sample_Marshal (sample_event "" "c1" "img" 7) = None
   ∧ Get sample_Marshal sample_decode_ID sample_FromParam fresh_world waiting_job
       ([] ++ [Recv (sample_event "" "c1" "img" 7)])
     = Some waiting_session)
  ∧ (Write_err (Stdout (s_job waiting_session)) (calls (Stdout (s_job waiting_session)))
       "die c1 img" = Some "broken pipe"
     ∧ ∃ s2, Get sample_Marshal sample_decode_ID sample_FromParam fresh_world waiting_job
               ([] ++ Recv (sample_event "die" "c1" "img" 7)
                   :: [Recv (sample_event "destroy" "c1" "img" 8)])
             = Some s2
           ∧ s_outcome s2 = Returned (Some "broken pipe")
           ∧ calls (Stdout (s_job s2)) = [""; "die c1 img"]
           ∧ subscribers (bus (s_world s2)) = []
           ∧ 0 ∈ closed (s_world s2))
  ∧ (∃ s, Get sample_Marshal sample_decode_ID sample_FromParam one_record replaying_job
            [Recv (sample_event "die" "c1" "img" 7)]
          = Some s
        ∧ s_outcome s = Returned (Some "broken pipe")
        ∧ calls (Stdout (s_job s)) = [""; "start c1 img"]
        ∧ subscribers (bus (s_world s)) = []
        ∧ 0 ∈ closed (s_world s)).
Proof.
  split; [|split].
  - split; [reflexivity|].
    destruct (emission_failures sample_Marshal sample_decode_ID sample_FromParam
                fresh_world waiting_job reach_fresh) as [Hdrop _].
    destruct (Hdrop [] waiting_session ∅ (sample_event "" "c1" "img" 7)
                waiting_session_reached eq_refl eq_refl eq_refl) as (_ & _ & Hget).
    exact Hget.
  - split; [reflexivity|].
    destruct (emission_failures sample_Marshal sample_decode_ID sample_FromParam
                fresh_world waiting_job reach_fresh) as (_ & Hfail & _).
    destruct (Hfail [] waiting_session ∅ (sample_event "die" "c1" "img" 7)
                "die c1 img" "broken pipe"
                waiting_session_reached eq_refl eq_refl eq_refl eq_refl eq_refl)
      as (job2 & _ & Hcalls & _ & Hget).
    destruct (Hget [Recv (sample_event "destroy" "c1" "img" 8)])
      as (s2 & Hs2 & Hout & Hjob & _ & _ & Hclosed & Hsubs).
    exists s2. split; [exact Hs2|]. split; [exact Hout|].
    split; [rewrite Hjob; exact Hcalls|]. split; [exact Hsubs|exact Hclosed].
  - destruct (emission_failures sample_Marshal sample_decode_ID sample_FromParam
                one_record replaying_job one_record_reachable) as (_ & _ & Hreplay).
    destruct (Hreplay [Recv (sample_event "die" "c1" "img" 7)] ∅
                (set_Stdout replaying_job
                   {| calls := [""; "start c1 img"];
                      Write_err := Write_err broken_output |})
                ∅ "broken pipe" eq_refl) as (s & Hs & Hout & Hjob & _ & _ & Hclosed & Hsubs).
    + discriminate.
    + reflexivity.
    + exists s. split; [exact Hs|]. split; [exact Hout|].
      split; [rewrite Hjob; reflexivity|]. split; [exact Hsubs|exact Hclosed].
Defined.

(** The filter [container=ghost] on a host that has no such container. *)
Lemma unresolved_container_filter_witness :
  args_get {["container" := ["ghost"]]} "container" ≠ []
  ∧ GetContainerId sample_decode_ID sample_engine "ghost" = ""
  ∧ writeEvent sample_Marshal sample_decode_ID (sample_job [] "" 0 0 sound_output)
      (sample_event "start" "4f2a" "img" 1) {["container" := ["ghost"]]}
    = (sample_job [] "" 0 0 sound_output, {["container" := [""]]}, None).
Proof.
  split; [discriminate|]. split; [reflexivity|].
  destruct (unresolved_container_filter sample_Marshal sample_decode_ID
              (sample_job [] "" 0 0 sound_output)
              (sample_event "start" "4f2a" "img" 1) {["container" := ["ghost"]]})
    as (_ & _ & Hsup).
  apply Hsup.
  - discriminate.
  - intros cn Hcn. apply list_elem_of_singleton in Hcn. rewrite Hcn. reflexivity.
  - discriminate.
  - discriminate.
Defined.

(** C8 as it is worded fails on a stored record whose [ID] is empty: the
    container filter that holds only the empty string, on a host where the
    empty name resolves to nothing, matches it, and the record is written. *)
Lemma empty_container_filter_counterexample :
  GetContainerId sample_decode_ID sample_engine "" = ""
  ∧ args_get (resolve_containers sample_decode_ID sample_engine {["container" := [""]]})
      "container" = [""]
  ∧ calls (Stdout (writeEvent sample_Marshal sample_decode_ID
                     (sample_job [] "" 0 0 sound_output)
                     (sample_event "untag" "" "img" 1) {["container" := [""]]}).1.1)
    = ["untag  img"]
  ∧ calls (Stdout (writeEvent sample_Marshal sample_decode_ID
                     (sample_job [] "" 0 0 sound_output)
                     (sample_event "start" ":4f2a" "img" 1) {["container" := [""]]}).1.1)
    = ["start :4f2a img"].
Proof. repeat split. Qed.

(** ** More worked instances *)

Lemma publishes_keep_last_witness :
  reachable two_subscribers
  ∧ ∃ w', publish_all two_subscribers [sample_publish "create" 1; sample_publish "start" 2]
          = Some w'
        ∧ events (bus w') = [sample_event "create" "c1" "img:latest" 1;
                             sample_event "start" "c1" "img:latest" 2]
        ∧ subscribers (bus w') = [0; 1].
Proof.
  split; [exact two_subscribers_reachable|].
  destruct (publishes_keep_last two_subscribers
              [sample_publish "create" 1; sample_publish "start" 2]
              two_subscribers_reachable) as (w' & Hrun & Hev & _ & Hsubs & _).
  exists w'. split; [exact Hrun|]. split; [exact Hev|exact Hsubs].
Defined.

Lemma record_retention_witness :
  reachable one_record
  ∧ ∃ w', publish_all one_record
            [sample_publish "die" 6; sample_publish "destroy" 7; sample_publish "create" 8]
          = Some w'
        ∧ events (bus w') !! (length (events (bus w')) - 1 - 2)
          = Some (sample_event "die" "c1" "img:latest" 6).
Proof.
  split; [exact one_record_reachable|].
  destruct (record_retention one_record (sample_publish "die" 6)
              [sample_publish "destroy" 7; sample_publish "create" 8]
              one_record_reachable) as (w' & Hrun & Hkeep & _).
  exists w'. split; [exact Hrun|]. apply Hkeep. unfold eventsLimit. simpl. lia.
Defined.

Lemma reachable_world_invariant_witness :
  reachable two_subscribers
  ∧ NoDup (subscribers (bus two_subscribers))
  ∧ events_cap (bus two_subscribers) = 64.
Proof.
  split; [exact two_subscribers_reachable|].
  destruct (reachable_world_invariant two_subscribers two_subscribers_reachable)
    as (Hnd & _ & _ & Hcap & _).
  split; [exact Hnd|exact Hcap].
Defined.

Lemma not_in_two_subscribers (l : nat) :
  2 ≤ l → l ∉ subscribers (bus two_subscribers).
Proof.
  intros Hl H. change (l ∈ [0; 1]) in H.
  apply elem_of_cons in H as [H|H]; [subst l; lia|].
  apply list_elem_of_singleton in H. subst l. lia.
Qed.

Lemma subscribe_unsubscribe_witness :
  (5 ∉ subscribers (bus two_subscribers)) ∧ (5 ∉ closed two_subscribers)
  ∧ unsubscribe (with_subscriber two_subscribers 5) 5
    = Some ({| bus := bus two_subscribers; closed := {[5]} ∪ closed two_subscribers;
               next_chan := 2; inbox := [] |}, true).
Proof.
  assert (H1 : 5 ∉ subscribers (bus two_subscribers))
    by (apply not_in_two_subscribers; lia).
  assert (H2 : 5 ∉ closed two_subscribers) by apply not_elem_of_empty.
  split; [exact H1|]. split; [exact H2|].
  destruct (subscribe_unsubscribe two_subscribers 5 H1 H2) as [_ Hun]. exact Hun.
Defined.

Lemma unsubscribe_first_occurrence_witness :
  subscribers (bus two_subscribers) = [] ++ 0 :: [1]
  ∧ ∃ w', unsubscribe two_subscribers 0 = Some (w', true)
        ∧ subscribers (bus w') = [1].
Proof.
  split; [reflexivity|].
  destruct (unsubscribe_first_occurrence two_subscribers 0 [] [1] eq_refl
              (not_elem_of_nil 0) (not_elem_of_empty 0))
    as (w' & Hun & Hsubs & _).
  exists w'. split; [exact Hun|exact Hsubs].
Defined.

(** The same channel registered twice by hand. *)
Definition twice_registered : World :=
  with_subscriber (with_subscriber fresh_world 3) 3.

Lemma double_registration_panics_witness :
  subscribers (bus twice_registered) = [] ++ 3 :: [3]
  ∧ ∃ w1, unsubscribe twice_registered 3 = Some (w1, true)
        ∧ unsubscribe w1 3 = None.
Proof.
  split; [reflexivity|].
  apply (double_registration_panics twice_registered 3 [] [3] eq_refl
           (not_elem_of_nil 3)).
  - left.
  - apply not_elem_of_empty.
Defined.

(** A registry that holds a closed channel. *)
Definition stale_world : World :=
  {| bus := {| events := []; events_cap := eventsLimit; subscribers := [4] |};
     closed := {[4]}; next_chan := 5; inbox := [] |}.

Lemma log_panics_iff_witness :
  buffer_inv (bus stale_world)
  ∧ log stale_world "start" "c1" "img" 1 (λ _, Some 0%Z) = None.
Proof.
  assert (Hbuf : buffer_inv (bus stale_world)).
  { split; [reflexivity|]. unfold eventsLimit. simpl. lia. }
  split; [exact Hbuf|].
  apply (log_panics_iff stale_world "start" "c1" "img" 1 (λ _, Some 0%Z) Hbuf).
  exists 4. split; [left|]. exact (proj2 (elem_of_singleton (C:=gset listener) 4 4) eq_refl).
Defined.

Lemma Log_then_log_witness :
  ∃ g w' tr t,
    Log fresh_world (sample_job ["die"; "c1"; "img"] "" 0 0 sound_output)
    = (fresh_world, None, Some g)
    ∧ run_goroutine one_record g 9 (λ _, None) = Some (w', tr, t)
    ∧ last (events (bus w')) = Some (sample_event "die" "c1" "img" 9).
Proof.
  destruct (Log_then_log fresh_world one_record
              (sample_job ["die"; "c1"; "img"] "" 0 0 sound_output)
              "die" "c1" "img" 9 (λ _, None) eq_refl one_record_reachable)
    as (g & w' & tr & t & HLog & Hrun & Hlast & _).
  exists g, w', tr, t. split; [exact HLog|]. split; [exact Hrun|exact Hlast].
Defined.

Lemma isFiltered_set_witness :
  isFiltered "start" ["stop"; "start"; "stop"] = isFiltered "start" ["start"; "stop"].
Proof.
  apply isFiltered_set. intros v. rewrite !elem_of_cons. split.
  - intros [H|[H|[H|H]]]; [right; left; exact H|left; exact H
                           |right; left; exact H|right; right; exact H].
  - intros [H|[H|H]]; [right; left; exact H|left; exact H
                       |right; right; right; exact H].
Defined.

Lemma isFiltered_plain_field_witness :
  Contains "start" colon = false
  ∧ isFiltered "start" ["stop"; "start"] = false
  ∧ ¬ isFiltered "start" ["stop"; "star"] = false.
Proof.
  split; [reflexivity|]. split.
  - apply (isFiltered_plain_field "start" ["stop"; "start"] eq_refl).
    right. right. left.
  - intros H. apply (isFiltered_plain_field "start" ["stop"; "star"] eq_refl) in H.
    destruct H as [H|H]; [discriminate H|].
    apply elem_of_cons in H as [H|H]; [discriminate H|].
    apply list_elem_of_singleton in H. discriminate H.
Defined.

Lemma isFiltered_colon_value_witness :
  Contains "host:5000/repo" colon = true
  ∧ ¬ isFiltered "host:5000/repo:tag" ["host:5000/repo"] = false.
Proof.
  split; [reflexivity|]. intros H.
  apply (isFiltered_colon_value "host:5000/repo:tag" "host:5000/repo" eq_refl) in H.
  discriminate H.
Defined.

Lemma isFiltered_app_witness :
  isFiltered "repo:tag" (["other"] ++ ["repo"])
  = isFiltered "repo:tag" ["other"] && isFiltered "repo:tag" ["repo"].
Proof.
  apply isFiltered_app; discriminate.
Defined.

(** The filter [container=web]: the name resolves to ["4f2a"] on the first
    record of a replay and, the sample engine knowing no container of that
    identifier, to the empty string on the second. *)
Lemma writeCurrent_resolutions_witness :
  writeCurrent sample_Marshal sample_decode_ID three_records
    (sample_job [] "" 15 0 sound_output) 15 0 {["container" := ["web"]]}
  = (three_records, sample_job [] "" 15 0 sound_output, {["container" := [""]]}, None)
  ∧ ({["container" := [""]]} : Args)
    = Nat.iter 2 (resolve_containers sample_decode_ID sample_engine)
        {["container" := ["web"]]}.
Proof.
  split; [reflexivity|].
  apply (writeCurrent_resolutions sample_Marshal sample_decode_ID three_records
           (sample_job [] "" 15 0 sound_output) (sample_job [] "" 15 0 sound_output)
           15 0 {["container" := ["web"]]} {["container" := [""]]}).
  reflexivity.
Defined.

(** An engine on which the identifier of the container [web] resolves to
    itself. *)
Definition stable_engine : Engine :=
  {| container_inspect := λ name,
       if decide (name = "web") then Some "4f2a"
       else if decide (name = "4f2a") then Some "4f2a" else None |}.

Lemma resolve_containers_stable_witness :
  resolve_containers sample_decode_ID stable_engine
    (resolve_containers sample_decode_ID stable_engine {["container" := ["web"; "ghost"]]})
  = resolve_containers sample_decode_ID stable_engine {["container" := ["web"; "ghost"]]}.
Proof.
  apply resolve_containers_stable. intros name Hname.
  change (name ∈ ["web"; "ghost"]) in Hname.
  apply elem_of_cons in Hname as [Hname|Hname]; [rewrite Hname; reflexivity|].
  apply list_elem_of_singleton in Hname. rewrite Hname. reflexivity.
Defined.

Lemma Get_no_replay_witness :
  reachable one_record
  ∧ Get sample_Marshal sample_decode_ID sample_FromParam one_record
      (sample_job [] "event=stop" 0 0 sound_output) []
    = Some {| s_world := (make_subscribe one_record).1;
              s_job := set_Stdout (sample_job [] "event=stop" 0 0 sound_output)
                         {| calls := [""]; Write_err := Write_err sound_output |};
              s_filters := Some {["event" := ["stop"]]};
              s_listener := Some 0; s_outcome := Blocked |}.
Proof.
  split; [exact one_record_reachable|].
  destruct (Get_no_replay sample_Marshal sample_decode_ID sample_FromParam one_record
              (sample_job [] "event=stop" 0 0 sound_output) {["event" := ["stop"]]}
              one_record_reachable eq_refl eq_refl) as [Hget _].
  exact Hget.
Defined.

(** A session with a deadline, waiting. *)
Definition timed_job : Job := sample_job [] "" 0 99 sound_output.

Definition timed_session : session :=
  {| s_world := (make_subscribe fresh_world).1;
     s_job := set_Stdout timed_job (Write (Stdout timed_job) "").1;
     s_filters := Some ∅; s_listener := Some 0; s_outcome := Blocked |}.

Lemma Get_ends_quietly_witness :
  Get sample_Marshal sample_decode_ID sample_FromParam fresh_world timed_job []
  = Some timed_session
  ∧ Get sample_Marshal sample_decode_ID sample_FromParam fresh_world timed_job
      ([] ++ ChanClosed :: [Recv (sample_event "die" "c1" "img" 7)])
    = Some (returned_session fresh_world (s_job timed_session) ∅ None)
  ∧ Get sample_Marshal sample_decode_ID sample_FromParam fresh_world timed_job
      ([] ++ TimerFired :: [Recv (sample_event "die" "c1" "img" 7)])
    = Some (returned_session fresh_world (s_job timed_session) ∅ None).
Proof.
  split; [reflexivity|].
  destruct (Get_ends_quietly sample_Marshal sample_decode_ID sample_FromParam
              fresh_world timed_job [] [Recv (sample_event "die" "c1" "img" 7)]
              timed_session ∅ reach_fresh eq_refl eq_refl eq_refl)
    as (Hclosed & Htimer & _).
  split; [exact Hclosed|]. apply Htimer. discriminate.
Defined.

Lemma Get_registry_witness :
  reachable two_subscribers
  ∧ ∃ s, Get sample_Marshal sample_decode_ID sample_FromParam two_subscribers
           (sample_job [] "" 0 0 sound_output) [Recv (sample_event "die" "c1" "img" 7)]
         = Some s
       ∧ s_listener s = Some 2
       ∧ reachable (s_world s).
Proof.
  split; [exact two_subscribers_reachable|].
  destruct (Get_registry sample_Marshal sample_decode_ID sample_FromParam two_subscribers
              (sample_job [] "" 0 0 sound_output) [Recv (sample_event "die" "c1" "img" 7)]
              ∅ two_subscribers_reachable eq_refl) as (s & Hget & Hl & Hreach & _).
  exists s. split; [exact Hget|]. split; [exact Hl|exact Hreach].
Defined.

Lemma Get_output_witness :
  reachable one_record
  ∧ ∃ s, Get sample_Marshal sample_decode_ID sample_FromParam one_record
           (sample_job [] "" 1 0 sound_output)
           [Recv (sample_event "die" "c1" "img" 7); Recv (sample_event "" "c1" "img" 8);
            ChanClosed; Recv (sample_event "destroy" "c1" "img" 9)]
         = Some s
       ∧ calls (Stdout (s_job s)) = [""; "start c1 img"; "die c1 img"].
Proof.
  split; [exact one_record_reachable|].
  destruct (Get_output sample_Marshal sample_decode_ID sample_FromParam one_record
              (sample_job [] "" 1 0 sound_output)
              [Recv (sample_event "die" "c1" "img" 7); Recv (sample_event "" "c1" "img" 8);
               ChanClosed; Recv (sample_event "destroy" "c1" "img" 9)]
              one_record_reachable eq_refl (λ _ _, eq_refl))
    as (s & Hget & Hcalls).
  - intros _ H. apply elem_of_cons in H as [H|H]; [discriminate H|].
    apply elem_of_cons in H as [H|H]; [discriminate H|].
    apply elem_of_cons in H as [H|H]; [discriminate H|].
    apply list_elem_of_singleton in H. discriminate H.
  - exists s. split; [exact Hget|exact Hcalls].
Defined.

Lemma Get_output_grows_witness :
  reachable fresh_world
  ∧ Get sample_Marshal sample_decode_ID sample_FromParam fresh_world timed_job []
    = Some timed_session
  ∧ ∃ s2, Get sample_Marshal sample_decode_ID sample_FromParam fresh_world timed_job
            ([] ++ [Recv (sample_event "die" "c1" "img" 7)])
          = Some s2
        ∧ calls (Stdout (s_job timed_session)) `prefix_of` calls (Stdout (s_job s2)).
Proof.
  split; [exact reach_fresh|]. split; [reflexivity|].
  destruct (Get_output_grows sample_Marshal sample_decode_ID sample_FromParam
              fresh_world timed_job [] [Recv (sample_event "die" "c1" "img" 7)]
              timed_session reach_fresh eq_refl) as (_ & s2 & Hget & Hpre & _).
  exists s2. split; [exact Hget|exact Hpre].
Defined.

Lemma publish_then_replay_witness :
  reachable one_record
  ∧ ∃ w' tr t job',
      log one_record "die" "c1" "img" 9 (λ _, None) = Some (w', tr, t)
      ∧ writeCurrent sample_Marshal sample_decode_ID (bus w')
          (sample_job [] "" 6 0 sound_output) 6 0 ∅
        = (bus w', job', ∅, None)
      ∧ last (calls (Stdout job')) = Some "die c1 img".
Proof.
  split; [exact one_record_reachable|].
  destruct (publish_then_replay sample_Marshal sample_decode_ID one_record
              (sample_job [] "" 6 0 sound_output) 6 0 "die" "c1" "img" 9 (λ _, None)
              "die c1 img" one_record_reachable)
    as (w' & tr & t & job' & Hlog & _ & Hrun & Hlast).
  - lia.
  - right. reflexivity.
  - reflexivity.
  - intros h c. reflexivity.
  - exists w', tr, t, job'. split; [exact Hlog|]. split; [exact Hrun|exact Hlast].
Defined.

Lemma fanout_extremes_witness :
  reachable two_subscribers
  ∧ (∃ w' tr, log two_subscribers "start" "c1" "img" 5 (λ _, Some 250%Z)
              = Some (w', tr, 200%Z)
            ∧ inbox w' = [])
  ∧ (∃ w' tr, log two_subscribers "start" "c1" "img" 5 (λ _, Some 0%Z)
              = Some (w', tr, 0%Z)
            ∧ inbox w' = [(0, sample_event "start" "c1" "img" 5);
                          (1, sample_event "start" "c1" "img" 5)]).
Proof.
  split; [exact two_subscribers_reachable|]. split.
  - destruct (fanout_extremes two_subscribers "start" "c1" "img" 5 (λ _, Some 250%Z)
                two_subscribers_reachable) as [Hlate _].
    apply Hlate. intros l _. reflexivity.
  - destruct (fanout_extremes two_subscribers "start" "c1" "img" 5 (λ _, Some 0%Z)
                two_subscribers_reachable) as [_ Hnow].
    apply Hnow. intros l _. exists 0%Z. split; [reflexivity|lia].
Defined.
